(** * tar_pmhc: the complex alignment assembly engine of [main.py]

    A shallow embedding of the aliasing index reader, the per-chain hit
    indexer [align_a3m], the complex assembler [align_complex] and the
    alignment validity automaton [_is_aligned] of [mhc_filter_main],
    followed by the properties of the specification stated over them.

    Python values are modelled as follows.
    - [str] is [string]; [s[j]] is [String.get j s] and [len(s)] is
      [String.length s].  Alignment rows and identifiers are ASCII text.
    - a [dict] that is only read through [in], [get] and [d[k]] is a
      [gmap string _]; the coverage accumulator, whose iteration order
      decides the order of the output rows, is an association list in
      insertion order.
    - a raised exception is a value of [exn] in the [result] monad.
    - the identifier codec of [profold2] and the iteration order of a
      Python [set] are parameters of the indexer and of the assembler; the
      module [Codec] gives the instances the concrete runs use. *)

From Stdlib Require Import ZArith Ascii Bool Lia.
From Stdlib Require String.
From stdpp Require Import base option list gmap strings pretty.

(** ** Characters and rows *)

Definition gap : ascii := "-"%char.
Definition mask : ascii := "*"%char.
Definition newline : ascii := "010"%char.

(** [c.islower()] for a one-character ASCII string: the cased characters
    of ASCII are the letters, and the lowercase ones are 'a' .. 'z'. *)
Definition islower (c : ascii) : bool :=
  (97 <=? nat_of_ascii c) && (nat_of_ascii c <=? 122).

(** ["*" * n] *)
Fixpoint repeat_char (c : ascii) (n : nat) : string :=
  match n with
  | O => EmptyString
  | S k => String c (repeat_char c k)
  end.

(** ** The alignment validity automaton ([_is_aligned] of [mhc_filter_main]) *)

Module Automaton.

(** The three local variables of the scan: [i], [j] and [state]. *)
Record scan : Type := Scan { pos_i : nat; pos_j : nat; state : nat }.

Definition init : scan := Scan 0 0 0.

(** [i, j = i + 1, j + 1], with the state the branch assigns. *)
Definition advance (s : scan) (st : nat) : scan :=
  Scan (S (pos_i s)) (S (pos_j s)) st.

(** The loop guard [i < len(target) and j < len(seq)]. *)
Definition guard (target seq : string) (s : scan) : bool :=
  (pos_i s <? String.length target) && (pos_j s <? String.length seq).

(** One pass through the loop body, entered with the guard true.
    [None] is [return False]; [Some s'] continues with the next test of
    the guard.  The two characters exist because the guard holds; the
    last branch is the fall-through of the [if]/[elif] chain. *)
Definition body (target seq : string) (s : scan) : option scan :=
  match String.get (pos_j s) seq, String.get (pos_i s) target with
  | Some c, Some t =>
      if islower c then None
      else if state s =? 0 then
        if Ascii.eqb c gap then Some (advance s 0)
        else if Ascii.eqb t c then Some (advance s 1)
        else None
      else if state s =? 1 then
        if Ascii.eqb c gap then Some (advance s 2)
        else if Ascii.eqb t c then Some (advance s 1)
        else None
      else if state s =? 2 then
        if negb (Ascii.eqb c gap) then None
        else Some (advance s 2)
      else Some s
  | _, _ => None
  end.

(** The [while] loop, unrolled at most [fuel] times.  The result is the
    returned boolean with the values of the locals at the [return];
    [None] means the fuel ran out before the function returned. *)
Fixpoint loop (fuel : nat) (target seq : string) (s : scan)
  : option (bool * scan) :=
  match fuel with
  | O => None
  | S k =>
      if guard target seq s then
        match body target seq s with
        | None => Some (false, s)
        | Some s' => loop k target seq s'
        end
      else Some (true, s)
  end.

(** Every pass that continues advances [j], so [len(seq)] passes and one
    last test of the guard are enough (see [run_total]). *)
Definition run (target seq : string) : option (bool * scan) :=
  loop (S (String.length seq)) target seq init.

Definition _is_aligned (target seq : string) : bool :=
  match run target seq with
  | Some (b, _) => b
  | None => false
  end.

End Automaton.

(** ** Exceptions *)

Inductive exn : Type :=
| ValueError | IndexError | TypeError | AssertionError | FileNotFoundError.

Inductive result (A : Type) : Type :=
| Ok (a : A)
| Raise (e : exn).
Arguments Ok {A} a.
Arguments Raise {A} e.

#[global] Instance result_ret : MRet result := fun A a => Ok a.
#[global] Instance result_bind : MBind result := fun A B f m =>
  match m with
  | Ok a => f a
  | Raise e => Raise e
  end.

(** A dictionary or list access that raises [e] when the entry is absent. *)
Definition or_raise {A : Type} (e : exn) (o : option A) : result A :=
  match o with
  | Some a => Ok a
  | None => Raise e
  end.

(** ** String helpers *)

Definition nonempty (s : string) : bool :=
  match s with
  | EmptyString => false
  | String _ _ => true
  end.

(** [s[n:]] *)
Fixpoint string_drop (n : nat) (s : string) : string :=
  match n, s with
  | O, _ => s
  | S k, EmptyString => EmptyString
  | S k, String _ s' => string_drop k s'
  end.

(** [sep.join(l)] *)
Fixpoint join (sep : string) (l : list string) : string :=
  match l with
  | [] => EmptyString
  | [x] => x
  | x :: rest => x +:+ sep +:+ join sep rest
  end.

(** [c.isspace()] on ASCII: the separators of [str.split()]. *)
Definition isspace (c : ascii) : bool :=
  let n := nat_of_ascii c in
  (n =? 32) || ((9 <=? n) && (n <=? 13)) || ((28 <=? n) && (n <=? 31)).

Fixpoint take_word (s : string) : string :=
  match s with
  | EmptyString => EmptyString
  | String c s' => if isspace c then EmptyString else String c (take_word s')
  end.

(** [desc.split()[0]]: the first whitespace-separated field; an empty or
    blank [desc] has no field and the index raises. *)
Fixpoint first_field (desc : string) : result string :=
  match desc with
  | EmptyString => Raise IndexError
  | String c s' => if isspace c then first_field s' else Ok (take_word desc)
  end.

(** ** Gap normalisation ([_repl] and the two [re.sub] calls) *)

(** The length of the longest prefix of [s] matched by [[-]*]. *)
Fixpoint match_gaps (s : string) : nat :=
  match s with
  | EmptyString => 0
  | String c s' => if Ascii.eqb c gap then S (match_gaps s') else 0
  end.

(** [_repl(m)], for a match [m] whose [group(0)] has [n] characters. *)
Definition _repl (n : nat) : string := repeat_char mask n.

(** [re.sub("^[-]+", _repl, s)]: [^] matches at position 0 only, so at
    most the leading run is replaced. *)
Definition sub_leading (s : string) : string :=
  let n := match_gaps s in
  if 0 <? n then _repl n +:+ string_drop n s else s.

(** Where [$] matches: at the end of the string, and just before a newline
    that is the last character. *)
Definition at_end (s : string) : bool :=
  match s with
  | EmptyString => true
  | String c EmptyString => Ascii.eqb c newline
  | String _ (String _ _) => false
  end.

(** [[-]+$] tried at the start of [s]: the greedy run must be followed by
    [$]; a shorter run is followed by a gap character, where [$] fails. *)
Definition match_trailing (s : string) : option nat :=
  let n := match_gaps s in
  if (0 <? n) && at_end (string_drop n s) then Some n else None.

(** [re.sub("[-]+$", _repl, s)]: the pattern is tried at each position from
    the left; after a match only the empty string or the final newline is
    left, where it cannot match again. *)
Fixpoint sub_trailing (s : string) : string :=
  match s with
  | EmptyString => EmptyString
  | String c s' =>
      match match_trailing s with
      | Some n => _repl n +:+ string_drop n s
      | None => String c (sub_trailing s')
      end
  end.

(** Lines 281-283 of [align_complex]. *)
Definition mask_row (hit_seq : string) : string :=
  sub_trailing (sub_leading hit_seq).

(** ** The index store *)

Module Index.

(** A non-blank line of an index file, as the fields of [line.split()]. *)
Definition line : Type := list string.

(** The loop of [read_mapping_idx]: [k, v = line.split()] raises unless
    the line has exactly two fields; then [mapping_dict[v] = k]. *)
Fixpoint read_mapping_lines (lines : list line)
    (mapping_dict : gmap string string) : result (gmap string string) :=
  match lines with
  | [] => Ok mapping_dict
  | [k; v] :: rest => read_mapping_lines rest (<[v := k]> mapping_dict)
  | _ :: _ => Raise ValueError
  end.

(** [read_mapping_idx]: [file] is [None] when the path does not exist. *)
Definition read_mapping_idx (file : option (list line))
    (mapping_dict : gmap string string) : result (gmap string string) :=
  match file with
  | Some lines => read_mapping_lines lines mapping_dict
  | None => Ok mapping_dict
  end.

(** The loop of [read_chain_idx]: [k, *v = line.split()]. *)
Fixpoint read_chain_lines (lines : list line)
    (chain_dict : gmap string (list string))
  : result (gmap string (list string)) :=
  match lines with
  | [] => Ok chain_dict
  | (k :: v) :: rest => read_chain_lines rest (<[k := v]> chain_dict)
  | [] :: _ => Raise ValueError
  end.

Definition read_chain_idx (file : option (list line))
    (chain_dict : gmap string (list string))
  : result (gmap string (list string)) :=
  match file with
  | Some lines => read_chain_lines lines chain_dict
  | None => Ok chain_dict
  end.

(** [mapping_idx.get(pdb_id, pdb_id)] *)
Definition resolve (mapping_idx : gmap string string) (pdb_id : string)
  : string :=
  default pdb_id (mapping_idx !! pdb_id).

(** An alignment block as [parse_fasta] returns it: sequences and
    descriptions. *)
Definition a3m_data : Type := list string * list string.

(** [read_a3m].  [blocks] stands for the alignment directory of
    [data_uri]: it maps an id to the parsed content of
    [<a3m_dir>/<id>/msas/<id>.a3m], and has no entry where [open] fails. *)
Definition read_a3m (blocks : gmap string a3m_data)
    (mapping_idx : gmap string string) (pdb_id : string) : result a3m_data :=
  let pdb_id := resolve mapping_idx pdb_id in
  or_raise FileNotFoundError (blocks !! pdb_id).

End Index.

(** ** The hit indexer and the complex assembler *)

Module Assembler.
Import Index.

(** A chain label as [decompose_pid] returns it: [None] when the
    identifier has no chain part. *)
Definition label : Type := option string.

(** A value of [align_data_dict]: [(domains, seq, desc, kwargs)], where
    the only keyword [align_complex] passes is [target_chain]. *)
Record align_record : Type := AlignRecord {
  rec_domains : list (Z * Z);
  rec_seq : string;
  rec_desc : string;
  rec_target_chain : string
}.

(** [align_chain_dict], a [defaultdict(list)], in insertion order. *)
Definition coverage : Type := list (string * list label).

Fixpoint acc_lookup (pid : string) (acc : coverage) : option (list label) :=
  match acc with
  | [] => None
  | (k, v) :: rest => if decide (k = pid) then Some v else acc_lookup pid rest
  end.

(** [align_chain_dict[pid].append(chain)]: a missing key is created with
    an empty list, at the end of the dictionary. *)
Fixpoint acc_append (pid : string) (chain : label) (acc : coverage)
  : coverage :=
  match acc with
  | [] => [(pid, [chain])]
  | (k, v) :: rest =>
      if decide (k = pid) then (k, v ++ [chain]) :: rest
      else (k, v) :: acc_append pid chain rest
  end.

(** [f"{pid}_{chain}" if chain else pid] *)
Definition compose_key (pid : string) (chain : label) : string :=
  match chain with
  | Some c => if nonempty c then pid +:+ "_" +:+ c else pid
  | None => pid
  end.

(** The read-only indices of [shared_obj]. *)
Record shared_obj : Type := SharedObj {
  db_attr_idx : gmap string string;
  db_chain_idx : gmap string (list string);
  db_mapping_idx : gmap string string;
  db_mapping_dict : gmap string (list string)
}.

(** [_seq_at_i(a3m_data, i)] *)
Definition _seq_at_i (data : a3m_data) (i : nat) : result (string * string) :=
  seq ← or_raise IndexError (data.1 !! i);
  desc ← or_raise IndexError (data.2 !! i);
  Ok (seq, desc).

(** The inner [_is_aligned] of [align_complex]. *)
Definition _is_aligned (sh : shared_obj) (pid : string)
    (chain_list : list label) : bool :=
  if decide (is_Some (db_attr_idx sh !! pid)) then
    match db_chain_idx sh !! pid with
    | Some required => length required =? length chain_list
    | None => false
    end
  else false.

(** The dictionary comprehension that builds [new_a3m_dict]. *)
Definition filter_aligned (sh : shared_obj) (a3m_dict : coverage)
  : coverage :=
  filter (fun kv => _is_aligned sh kv.1 kv.2 = true) a3m_dict.

(** The loop that adds the target: [acc] is [(target_seq, domains, n)]
    and [i] counts the chains already added. *)
Fixpoint add_target (a3m_list : list a3m_data) (i : nat)
    (target_chain_list : list string) (acc : string * list (Z * Z) * Z)
  : result (string * list (Z * Z) * Z) :=
  match target_chain_list with
  | [] => Ok acc
  | chain :: rest =>
      let '(target_seq, domains, n) := acc in
      data ← or_raise IndexError (a3m_list !! i);
      '(seq, _) ← _seq_at_i data 0;
      let len := Z.of_nat (String.length seq) in
      add_target a3m_list (S i) rest
        (target_seq +:+ seq, domains ++ [(n, n + len - 1)], n + (len + 100))%Z
  end.

(** [c for c, *_ in chain_list]: each label is unpacked as a sequence. *)
Definition first_of_label (chain : label) : result string :=
  match chain with
  | None => Raise TypeError
  | Some EmptyString => Raise ValueError
  | Some (String c _) => Ok (String c EmptyString)
  end.

Fixpoint first_of_labels (chain_list : list label) : result (list string) :=
  match chain_list with
  | [] => Ok []
  | chain :: rest =>
      c ← first_of_label chain;
      cs ← first_of_labels rest;
      Ok (c :: cs)
  end.

(** [hit_desc] *)
Definition hit_header (sh : shared_obj) (pid : string)
    (chain_list : list label) : result string :=
  cs ← first_of_labels chain_list;
  let hit_desc := ">" +:+ pid +:+ " chains:" +:+ join "," cs in
  Ok match db_attr_idx sh !! pid with
     | Some blob => hit_desc +:+ " " +:+ blob
     | None => hit_desc
     end.

(** The record line 276 or line 279 reads for a label of the hit. *)
Definition record_of (sh : shared_obj)
    (align_data_dict : gmap string align_record)
    (pid : string) (chain : label) : result align_record :=
  let pdb_id := compose_key pid chain in
  canonical ← or_raise AssertionError (db_mapping_idx sh !! pdb_id);
  match align_data_dict !! pdb_id with
  | Some r => Ok r
  | None => or_raise AssertionError (align_data_dict !! canonical)
  end.

(** The loop over [chain_list] for one target chain: [Some row] when the
    loop leaves through [break] with the masked row, [None] when it runs
    to its end. *)
Fixpoint select_row (sh : shared_obj)
    (align_data_dict : gmap string align_record)
    (pid target_chain : string) (chain_list : list label)
  : result (option string) :=
  match chain_list with
  | [] => Ok None
  | chain :: rest =>
      r ← record_of sh align_data_dict pid chain;
      if decide (rec_target_chain r = target_chain)
      then Ok (Some (mask_row (rec_seq r)))
      else select_row sh align_data_dict pid target_chain rest
  end.

(** [hit_seq_at_i] for target chain number [i]. *)
Definition hit_seq_at (sh : shared_obj)
    (align_data_dict : gmap string align_record)
    (a3m_list : list a3m_data) (pid : string) (chain_list : list label)
    (i : nat) (target_chain : string) : result string :=
  data ← or_raise IndexError (a3m_list !! i);
  '(seq, _) ← _seq_at_i data 0;
  found ← select_row sh align_data_dict pid target_chain chain_list;
  Ok (default (repeat_char mask (String.length seq)) found).

(** The loop over the target chains that builds [new_hit_seq]. *)
Fixpoint hit_row (sh : shared_obj)
    (align_data_dict : gmap string align_record)
    (a3m_list : list a3m_data) (pid : string) (chain_list : list label)
    (i : nat) (target_chain_list : list string) (new_hit_seq : string)
  : result string :=
  match target_chain_list with
  | [] => Ok new_hit_seq
  | target_chain :: rest =>
      s ← hit_seq_at sh align_data_dict a3m_list pid chain_list i target_chain;
      hit_row sh align_data_dict a3m_list pid chain_list (S i) rest
        (new_hit_seq +:+ s)
  end.

(** The loop over [new_a3m_dict]: two lines are appended per hit. *)
Fixpoint add_hits (sh : shared_obj)
    (align_data_dict : gmap string align_record)
    (a3m_list : list a3m_data) (target_chain_list : list string)
    (new_a3m_dict : coverage) (new_a3m_list : list string)
  : result (list string) :=
  match new_a3m_dict with
  | [] => Ok new_a3m_list
  | (pid, chain_list) :: rest =>
      hit_desc ← hit_header sh pid chain_list;
      new_hit_seq ← hit_row sh align_data_dict a3m_list pid chain_list 0
                      target_chain_list EmptyString;
      add_hits sh align_data_dict a3m_list target_chain_list rest
        (new_a3m_list ++ [hit_desc; new_hit_seq])
  end.

Section Codec.

(** The identifier codec of [profold2.data.utils] is outside this
    repository: [decompose_pid id] is [(pid, chain, domains)], and
    [seq_index_split] and [seq_index_join] read and write the text of a
    list of domain ranges. *)
Variable decompose_pid : string -> string * label * option string.
Variable seq_index_split : string -> result (list (Z * Z)).
Variable seq_index_join : list (Z * Z) -> string.

(** The order in which a [for] loop visits a Python [set]. *)
Variable set_iter : gset string -> list string.

(** The body of the loop over [pdb_id_list]. *)
Definition credit (align_chain_dict : coverage) (pdb_id : string)
  : coverage :=
  let '(pid, chain, _) := decompose_pid pdb_id in
  acc_append pid chain align_chain_dict.

(** [set([pdb_id]) | set(mapping_dict.get(pdb_id, []))] *)
Definition pdb_id_list (mapping_dict : gmap string (list string))
    (pdb_id : string) : gset string :=
  {[pdb_id]} ∪ list_to_set (default [] (mapping_dict !! pdb_id)).

(** [list(seq_index_split(domains)) if domains else []] *)
Definition domain_list (domains : option string) : result (list (Z * Z)) :=
  match domains with
  | Some d => if nonempty d then seq_index_split d else Ok []
  | None => Ok []
  end.

(** The body of the loop of [align_a3m], for one row [(seq, desc)]. *)
Definition align_row (mapping_dict : gmap string (list string))
    (target_chain : string)
    (align_dict : gmap string align_record * coverage)
    (seq desc : string)
  : result (gmap string align_record * coverage) :=
  let '(align_data_dict, align_chain_dict) := align_dict in
  id ← first_field desc;
  let '(pid, chain, domains) := decompose_pid id in
  domains ← domain_list domains;
  let pdb_id := compose_key pid chain in
  let align_data_dict :=
    <[pdb_id := AlignRecord domains seq desc target_chain]> align_data_dict in
  Ok (align_data_dict,
      foldl credit align_chain_dict
        (set_iter (pdb_id_list mapping_dict pdb_id))).

Fixpoint align_rows (mapping_dict : gmap string (list string))
    (target_chain : string)
    (align_dict : gmap string align_record * coverage)
    (rows : list (string * string))
  : result (gmap string align_record * coverage) :=
  match rows with
  | [] => Ok align_dict
  | (seq, desc) :: rest =>
      align_dict ← align_row mapping_dict target_chain align_dict seq desc;
      align_rows mapping_dict target_chain align_dict rest
  end.

(** [align_a3m(a3m_data, mapping_dict, align_dict, target_chain=...)] *)
Definition align_a3m (data : a3m_data)
    (mapping_dict : gmap string (list string))
    (align_dict : gmap string align_record * coverage)
    (target_chain : string)
  : result (gmap string align_record * coverage) :=
  let '(a3m_seqs, a3m_descs) := data in
  align_rows mapping_dict target_chain align_dict
    (zip (drop 1 a3m_seqs) (drop 1 a3m_descs)).

(** The first loop of [align_complex]: read and index every chain. *)
Fixpoint read_a3m_dict (sh : shared_obj) (target_uri : gmap string a3m_data)
    (target_mapping_idx : gmap string string) (target_pid : string)
    (target_chain_list : list string)
    (a3m_list : list a3m_data)
    (a3m_dict : gmap string align_record * coverage)
  : result (list a3m_data * (gmap string align_record * coverage)) :=
  match target_chain_list with
  | [] => Ok (a3m_list, a3m_dict)
  | chain :: rest =>
      let pid := compose_key target_pid (Some chain) in
      data ← read_a3m target_uri target_mapping_idx pid;
      a3m_dict ← align_a3m data (db_mapping_dict sh) a3m_dict chain;
      read_a3m_dict sh target_uri target_mapping_idx target_pid rest
        (a3m_list ++ [data]) a3m_dict
  end.

(** [align_complex]: the result is [(item, new_a3m_list, a3m_dict)]. *)
Definition align_complex (sh : shared_obj)
    (target_uri : gmap string a3m_data)
    (target_mapping_idx : gmap string string)
    (item : string * list string)
  : result (string * list string * list string * coverage) :=
  let '(target_pid, target_chain_list) := item in
  '(a3m_list, (align_data_dict, a3m_dict)) ←
    read_a3m_dict sh target_uri target_mapping_idx target_pid
      target_chain_list [] (∅, []);
  let new_a3m_dict := filter_aligned sh a3m_dict in
  '(target_seq, domains, _) ←
    add_target a3m_list 0 target_chain_list (EmptyString, [], 1%Z);
  let target_desc :=
    ">" +:+ target_pid +:+ " domains:" +:+ seq_index_join domains in
  new_a3m_list ←
    add_hits sh align_data_dict a3m_list target_chain_list new_a3m_dict
      [target_desc; target_seq];
  Ok (target_pid, target_chain_list, new_a3m_list, a3m_dict).

End Codec.

End Assembler.

(** ** The identifier codec *)

Module Codec.

(** [s.find(sep)] and the two slices around it: the text before the
    first [sep], and the text after it when there is one. *)
Fixpoint split_first (sep : ascii) (s : string) : string * option string :=
  match s with
  | EmptyString => (EmptyString, None)
  | String c s' =>
      if Ascii.eqb c sep then (EmptyString, Some s')
      else let (a, b) := split_first sep s' in (String c a, b)
  end.

(** Modelled from the spec: [decompose_pid] of [profold2.data.utils] is
    not part of this repository.  A composite identifier is a base id,
    optionally followed by [_] and a chain label (the inverse of the
    [f"{pid}_{chain}"] of [main.py]), optionally followed by [/] and the
    text of its domain ranges (as the [/1-{k}] that [align_peptide_main]
    writes). *)
Definition decompose_pid (id : string)
  : string * Assembler.label * option string :=
  let (head, domains) := split_first "/" id in
  let (pid, chain) := split_first "_" head in
  (pid, chain, domains).

(** [int(s)] for an unsigned decimal numeral. *)
Fixpoint parse_digits (s : string) (acc : Z) : option Z :=
  match s with
  | EmptyString => Some acc
  | String c s' =>
      let n := nat_of_ascii c in
      if (48 <=? n) && (n <=? 57)
      then parse_digits s' (10 * acc + Z.of_nat (n - 48))%Z
      else None
  end.

Definition parse_int (s : string) : result Z :=
  if nonempty s then or_raise ValueError (parse_digits s 0%Z)
  else Raise ValueError.

(** [text.split(sep)] for a one-character separator. *)
Fixpoint split_on (sep : ascii) (s : string) : list string :=
  match s with
  | EmptyString => [EmptyString]
  | String c s' =>
      if Ascii.eqb c sep then EmptyString :: split_on sep s'
      else match split_on sep s' with
           | w :: ws => String c w :: ws
           | [] => [String c EmptyString]
           end
  end.

Definition parse_range (s : string) : result (Z * Z) :=
  match split_on "-" s with
  | [i; j] => a ← parse_int i; b ← parse_int j; Ok (a, b)
  | _ => Raise ValueError
  end.

Fixpoint parse_ranges (l : list string) : result (list (Z * Z)) :=
  match l with
  | [] => Ok []
  | s :: rest => r ← parse_range s; rs ← parse_ranges rest; Ok (r :: rs)
  end.

(** Modelled from the spec: [seq_index_split] of [profold2.data.utils] is
    not part of this repository.  The compact text of a list of 1-based
    inclusive domain ranges is [i-j] per range, separated by commas. *)
Definition seq_index_split (text : string) : result (list (Z * Z)) :=
  parse_ranges (split_on "," text).

(** Modelled from the spec: [seq_index_join] of [profold2.data.utils] is
    not part of this repository; it writes the text [seq_index_split]
    reads. *)
Definition seq_index_join (domains : list (Z * Z)) : string :=
  join "," (map (fun d => pretty d.1 +:+ "-" +:+ pretty d.2) domains).

(** One iteration order of a set. *)
Definition set_iter (X : gset string) : list string := elements X.

End Codec.

(** ** Vocabulary of the statements *)

(** The invariant of the scan of the automaton: [i] and [j] move together,
    never beyond the shorter of the two strings, and [state] is 0, 1 or 2. *)
Definition lockstep (target seq : string) (s : Automaton.scan) : Prop :=
  Automaton.pos_i s = Automaton.pos_j s /\ Automaton.state s <= 2 /\
  Automaton.pos_j s <= Nat.min (String.length target) (String.length seq).

Fixpoint contains (c : ascii) (s : string) : bool :=
  match s with
  | EmptyString => false
  | String a s' => Ascii.eqb a c || contains c s'
  end.

Definition starts_with_gap (s : string) : bool :=
  match s with
  | EmptyString => false
  | String c _ => Ascii.eqb c gap
  end.

Fixpoint ends_with_gap (s : string) : bool :=
  match s with
  | EmptyString => false
  | String c EmptyString => Ascii.eqb c gap
  | String _ s' => ends_with_gap s'
  end.

(** A row without its trailing run of gap characters, and the length of
    that run. *)
Fixpoint split_trailing (s : string) : string * nat :=
  match s with
  | EmptyString => (EmptyString, 0)
  | String c s' =>
      let (core, b) := split_trailing s' in
      if nonempty core then (String c core, b)
      else if Ascii.eqb c gap then (EmptyString, S b)
      else (String c EmptyString, b)
  end.

(** The canonical id on the last line of an aliasing index that names [a]
    as the alias. *)
Fixpoint alias_of (a : string) (lines : list Index.line) : option string :=
  match lines with
  | [] => None
  | l :: rest =>
      match alias_of a rest with
      | Some k => Some k
      | None =>
          match l with
          | [k; v] => if decide (v = a) then Some k else None
          | _ => None
          end
      end
  end.

(** [s1 + s2 + ...], as repeated [+=] builds it. *)
Fixpoint concat_rows (l : list string) : string :=
  match l with
  | [] => EmptyString
  | s :: rest => s +:+ concat_rows rest
  end.

(** The domain spans of chains of the given lengths laid out from position
    [n] with 100 positions between consecutive chains. *)
Fixpoint spans (n : Z) (lens : list nat) : list (Z * Z) :=
  match lens with
  | [] => []
  | l :: rest =>
      (n, n + Z.of_nat l - 1)%Z :: spans (n + (Z.of_nat l + 100))%Z rest
  end.

(** What one row [(seq, desc)] of a block registers under the target chain:
    the key and the record. *)
Definition registered
    (decompose_pid : string -> string * Assembler.label * option string)
    (seq_index_split : string -> result (list (Z * Z)))
    (target_chain : string) (row : string * string)
    (reg : string * Assembler.align_record) : Prop :=
  exists id pid chain domains,
    first_field row.2 = Ok id /\
    decompose_pid id = (pid, chain, domains) /\
    reg.1 = Assembler.compose_key pid chain /\
    Assembler.domain_list seq_index_split domains
      = Ok (Assembler.rec_domains reg.2) /\
    Assembler.rec_seq reg.2 = row.1 /\ Assembler.rec_desc reg.2 = row.2 /\
    Assembler.rec_target_chain reg.2 = target_chain.

(** The two output lines of each hit, in order. *)
Definition hit_lines (hits : list (string * string)) : list string :=
  flat_map (fun h => [h.1; h.2]) hits.

(** ** Concrete inputs *)

Module Examples.
Import Assembler.

Definition align_complex :=
  Assembler.align_complex Codec.decompose_pid Codec.seq_index_split
    Codec.seq_index_join Codec.set_iter.
Definition read_a3m_dict :=
  Assembler.read_a3m_dict Codec.decompose_pid Codec.seq_index_split
    Codec.set_iter.
Definition align_a3m :=
  Assembler.align_a3m Codec.decompose_pid Codec.seq_index_split
    Codec.set_iter.

(** A database with the two-chain complex H1. *)
Definition db : shared_obj :=
  SharedObj {["H1" := "{}"]} {["H1" := ["A"; "B"]]}
    {["H1_A" := "H1_A"; "H1_B" := "H1_B"]}
    {["H1_A" := ["H1_A"]; "H1_B" := ["H1_B"]]}.

(** The same complex when its chain B is recorded as an alias of its
    chain A. *)
Definition db_alias : shared_obj :=
  SharedObj {["H1" := "{}"]} {["H1" := ["A"; "B"]]}
    {["H1_A" := "H1_A"; "H1_B" := "H1_A"]}
    {["H1_A" := ["H1_A"; "H1_B"]]}.

Definition target : string * list string := ("T1", ["A"; "B"]).

(** Chain A of the target hits H1_A, chain B hits H1_B. *)
Definition blocks_paired : gmap string Index.a3m_data :=
  {[ "T1_A" := (["ABCDE"; "-BCD-"], ["T1_A"; "H1_A/2-4"]);
     "T1_B" := (["WXYZ"; "WX--"], ["T1_B"; "H1_B/1-2"]) ]}.

(** Both chains of H1 are hit by chain A of the target, none by chain B. *)
Definition blocks_one_sided : gmap string Index.a3m_data :=
  {[ "T1_A" := (["ABCDE"; "-BCD-"; "ABC--"],
                ["T1_A"; "H1_A/2-4"; "H1_B/1-3"]);
     "T1_B" := (["WXYZ"], ["T1_B"]) ]}.

(** H1_A is hit by both chains of the target, H1_B by chain B. *)
Definition blocks_repeated : gmap string Index.a3m_data :=
  {[ "T1_A" := (["ABCDE"; "-BCD-"], ["T1_A"; "H1_A/2-4"]);
     "T1_B" := (["WXYZ"; "WXY-"; "WX--"],
                ["T1_B"; "H1_A/1-3"; "H1_B/1-2"]) ]}.

(** H1_A is hit by both chains of the target, H1_B by none. *)
Definition blocks_same_hit : gmap string Index.a3m_data :=
  {[ "T1_A" := (["ABCDE"; "-BCD-"], ["T1_A"; "H1_A/2-4"]);
     "T1_B" := (["WXYZ"; "WXY-"], ["T1_B"; "H1_A/1-3"]) ]}.

Definition block_a : Index.a3m_data :=
  (["ABCDE"; "-BCD-"], ["T1_A"; "H1_A/2-4"]).
Definition block_b_h1a : Index.a3m_data :=
  (["WXYZ"; "WXY-"], ["T1_B"; "H1_A/1-3"]).

Definition hit_a_on_a : align_record :=
  AlignRecord [(2, 4)%Z] "-BCD-" "H1_A/2-4" "A".
Definition hit_a_on_b : align_record :=
  AlignRecord [(1, 3)%Z] "WXY-" "H1_A/1-3" "B".
Definition hit_b_on_a : align_record :=
  AlignRecord [(1, 3)%Z] "ABC--" "H1_B/1-3" "A".
Definition hit_b_on_b : align_record :=
  AlignRecord [(1, 2)%Z] "WX--" "H1_B/1-2" "B".

(** The record stores the four block sets leave behind. *)
Definition records_paired : gmap string align_record :=
  {["H1_A" := hit_a_on_a; "H1_B" := hit_b_on_b]}.
Definition records_one_sided : gmap string align_record :=
  {["H1_A" := hit_a_on_a; "H1_B" := hit_b_on_a]}.
Definition records_repeated : gmap string align_record :=
  {["H1_A" := hit_a_on_b; "H1_B" := hit_b_on_b]}.
Definition records_same_hit : gmap string align_record :=
  {["H1_A" := hit_a_on_b]}.

(** One hit row H1_A, known under the alias H2_C. *)
Definition block_aliased : Index.a3m_data :=
  (["ABCDE"; "-BCD-"], ["T1_A"; "H1_A/2-4"]).
Definition aliases_h2 : gmap string (list string) :=
  {["H1_A" := ["H2_C"]]}.

End Examples.
(** ** Further vocabulary: the automaton on suffixes *)


(** The scan of the automaton read off the two remaining suffixes instead
    of the two indices: what the loop returns when it is entered in
    [state] with [target[i:]] and [seq[j:]] left. *)
Fixpoint scan_suffixes (state : nat) (target seq : string) : bool :=
  match target, seq with
  | String t target', String c seq' =>
      if islower c then false
      else match state with
           | 0 => if Ascii.eqb c gap then scan_suffixes 0 target' seq'
                  else if Ascii.eqb t c then scan_suffixes 1 target' seq'
                  else false
           | 1 => if Ascii.eqb c gap then scan_suffixes 2 target' seq'
                  else if Ascii.eqb t c then scan_suffixes 1 target' seq'
                  else false
           | _ => if Ascii.eqb c gap then scan_suffixes 2 target' seq'
                  else false
           end
  | _, _ => true
  end.

(** ** The row filter of [mhc_filter_main] *)

Module MhcFilter.


End MhcFilter.

(** ** The other index readers and the start of [align_complex_main] *)

Module Readers.
Import Index.

Section Json.

(** [json.loads] is a parameter: [None] stands for any exception it
    raises, which [read_attrs_idx] swallows. *)
Context {attr : Type}.
Variable json_loads : string -> option attr.

(** The loop of [read_attrs_idx]: [k, *v = line.split()], then
    [attr_dict[k] = json.loads(" ".join(v))] inside [try ... except: pass]. *)
Fixpoint read_attrs_lines (lines : list line) (attr_dict : gmap string attr)
  : result (gmap string attr) :=
  match lines with
  | [] => Ok attr_dict
  | (k :: v) :: rest =>
      read_attrs_lines rest
        match json_loads (join " " v) with
        | Some a => <[k := a]> attr_dict
        | None => attr_dict
        end
  | [] :: _ => Raise ValueError
  end.

Definition read_attrs_idx (file : option (list line))
    (attr_dict : gmap string attr) : result (gmap string attr) :=
  match file with
  | Some lines => read_attrs_lines lines attr_dict
  | None => Ok attr_dict
  end.

(** The three index files of one database location, each absent or parsed
    into the fields of its non-blank lines. *)
Record db_files : Type := DbFiles {
  mapping_file : option (list line);
  chain_file : option (list line);
  attr_file : option (list line)
}.

(** The first loop of [align_complex_main]: every location is read into
    the dictionaries the earlier locations have filled. *)
Fixpoint load_indices (dbs : list db_files)
    (idx : gmap string string * gmap string (list string) * gmap string attr)
  : result (gmap string string * gmap string (list string) * gmap string attr) :=
  match dbs with
  | [] => Ok idx
  | db :: rest =>
      let '(db_mapping_idx, db_chain_idx, db_attr_idx) := idx in
      db_mapping_idx ← read_mapping_idx (mapping_file db) db_mapping_idx;
      db_chain_idx ← read_chain_idx (chain_file db) db_chain_idx;
      db_attr_idx ← read_attrs_idx (attr_file db) db_attr_idx;
      load_indices rest (db_mapping_idx, db_chain_idx, db_attr_idx)
  end.

End Json.

(** [db_mapping_dict[v].append(k)] on the [defaultdict(list)]. *)
Definition add_alias (db_mapping_dict : gmap string (list string))
    (kv : string * string) : gmap string (list string) :=
  <[kv.2 := default [] (db_mapping_dict !! kv.2) ++ [kv.1]]> db_mapping_dict.

(** The second loop of [align_complex_main], over [db_mapping_idx.items()]. *)
Definition build_mapping_dict (items : list (string * string))
  : gmap string (list string) :=
  foldl add_alias ∅ items.

End Readers.

(** The chain list on the last line of a membership index that starts with
    [k]. *)
Fixpoint chains_of (k : string) (lines : list Index.line)
  : option (list string) :=
  match lines with
  | [] => None
  | l :: rest =>
      match chains_of k rest with
      | Some v => Some v
      | None =>
          match l with
          | k' :: v => if decide (k' = k) then Some v else None
          | [] => None
          end
      end
  end.

(** The attribute on the last line of an attribute index that starts with
    [k] and whose JSON text loads. *)
Fixpoint attr_of {attr : Type} (json_loads : string -> option attr)
    (k : string) (lines : list Index.line) : option attr :=
  match lines with
  | [] => None
  | l :: rest =>
      match attr_of json_loads k rest with
      | Some a => Some a
      | None =>
          match l with
          | k' :: v => if decide (k' = k) then json_loads (join " " v) else None
          | [] => None
          end
      end
  end.

(** The lines of the files that are present, in the order of the
    locations. *)
Definition all_lines
    (file : Readers.db_files -> option (list Index.line))
    (dbs : list Readers.db_files) : list Index.line :=
  flat_map (fun db => default [] (file db)) dbs.

(** A record that is a non-query row of the block of the target chain it
    is tagged with. *)
Definition from_block (target_uri : gmap string Index.a3m_data)
    (target_mapping_idx : gmap string string) (target_pid : string)
    (chains : list string) (r : Assembler.align_record) : Prop :=
  Assembler.rec_target_chain r ∈ chains /\
  exists block,
    Index.read_a3m target_uri target_mapping_idx
      (Assembler.compose_key target_pid (Some (Assembler.rec_target_chain r)))
      = Ok block /\
    (Assembler.rec_seq r, Assembler.rec_desc r)
      ∈ zip (drop 1 block.1) (drop 1 block.2).

(** [s'] is [s] with some of its gap characters replaced by the mask
    character and nothing else changed. *)
Fixpoint masked_from (s s' : string) : Prop :=
  match s, s' with
  | EmptyString, EmptyString => True
  | String c r, String c' r' =>
      (c' = c \/ (c = gap /\ c' = mask)) /\ masked_from r r'
  | _, _ => False
  end.

(** ** The sequence store of [csv_to_fasta_main] *)

Module CsvToFasta.

(** The two dictionaries [cell_write] updates, and the fasta files it has
    written, by identifier. *)
Record state : Type := State {
  mapping_idx : gmap string string;
  fasta_idx : gmap string string;
  written : gmap string string
}.

(** [cell_write(c, pid)]: a sequence not seen before gets a fasta file and
    becomes its own canonical identifier; a sequence seen before maps the
    identifier to the canonical one. *)
Definition cell_write (c pid : string) (st : state) : state :=
  match fasta_idx st !! c with
  | None =>
      State (<[pid := pid]> (mapping_idx st)) (<[c := pid]> (fasta_idx st))
        (<[pid := ">" +:+ pid +:+ String newline c]> (written st))
  | Some canonical =>
      State (<[pid := canonical]> (mapping_idx st)) (fasta_idx st) (written st)
  end.

(** A run of calls of [cell_write], one per pair of a cell and its
    identifier, in order. *)
Definition cell_writes (cells : list (string * string)) (st : state) : state :=
  foldl (fun st cp => cell_write cp.1 cp.2 st) st cells.

End CsvToFasta.

(** What a run of [cell_write] keeps true, for the cells [done] written so
    far on top of the sequence index [fasta0]: one canonical identifier per
    sequence, canonical identifiers that are old or written, and every
    identifier written mapped to the canonical identifier of its cell. *)
Definition store_inv (fasta0 : gmap string string)
    (done : list (string * string)) (st : CsvToFasta.state) : Prop :=
  (forall c1 c2 q,
     CsvToFasta.fasta_idx st !! c1 = Some q ->
     CsvToFasta.fasta_idx st !! c2 = Some q -> c1 = c2) /\
  (forall c q, CsvToFasta.fasta_idx st !! c = Some q ->
     fasta0 !! c = Some q \/ q ∈ done.*2) /\
  (forall c p, (c, p) ∈ done ->
     is_Some (CsvToFasta.fasta_idx st !! c) /\
     CsvToFasta.mapping_idx st !! p = CsvToFasta.fasta_idx st !! c).

(** ** The text of an aliasing index *)

Module IndexText.
Import Index.


(** [line.split()] *)
Fixpoint split_fields (s : string) : list string :=
  match s with
  | EmptyString => []
  | String c s' =>
      if isspace c then split_fields s'
      else match s' with
           | EmptyString => [String c EmptyString]
           | String d _ =>
               if isspace d then String c EmptyString :: split_fields s'
               else match split_fields s' with
                    | w :: ws => String c w :: ws
                    | [] => [String c EmptyString]
                    end
           end
  end.








End IndexText.



(** ** The peptide alignments of [align_peptide_main] *)

Module AlignPeptide.
Import Index.





End AlignPeptide.



(** ** The allele table of [mhc_preprocess_main] *)

Module MhcPreprocess.

(** [re.split(r"[*:]", name)] *)
Fixpoint split_allele (name : string) : list string :=
  match name with
  | EmptyString => [EmptyString]
  | String c s' =>
      if Ascii.eqb c "*" || Ascii.eqb c ":" then EmptyString :: split_allele s'
      else match split_allele s' with
           | w :: ws => String c w :: ws
           | [] => [String c EmptyString]
           end
  end.

(** ["".join(name[:idx])] *)
Definition allele_key (idx : nat) (name : string) : string :=
  concat_rows (take idx (split_allele name)).

(** The body of the loop over the rows of the sequence file, for a row
    with the columns [name] and [sqe]: the keys of 3 and of 2 fields are
    set unless they are present. *)
Definition add_allele (mhc_seq_dict : gmap string string)
    (row : string * string) : gmap string string :=
  foldl (fun d idx =>
           let k := allele_key idx row.1 in
           match d !! k with
           | Some _ => d
           | None => <[k := row.2]> d
           end) mhc_seq_dict [3; 2].

Definition load_alleles (rows : list (string * string)) : gmap string string :=
  foldl add_allele ∅ rows.

(** The loop over the rows of the label file, with the columns [Allele]
    and [Peptide]: the rows of a known allele, as [(Antigen, MHC_str)]. *)
Definition mhc_rows (mhc_seq_dict : gmap string string)
    (rows : list (string * string)) : list (string * string) :=
  omap (fun row => (fun sqe => (row.2, sqe)) <$> mhc_seq_dict !! row.1) rows.

End MhcPreprocess.

(** The sequence of the first row whose name gives the key [k] with 3 or
    with 2 fields. *)
Fixpoint first_allele (k : string) (rows : list (string * string))
  : option string :=
  match rows with
  | [] => None
  | row :: rest =>
      if decide (MhcPreprocess.allele_key 3 row.1 = k \/
                 MhcPreprocess.allele_key 2 row.1 = k)
      then Some row.2
      else first_allele k rest
  end.

(** * Properties of the alignment validity automaton *)

Module AutomatonFacts.
Import Automaton.

Lemma get_Some_lt (s : string) : forall j c,
  String.get j s = Some c -> j < String.length s.
Proof.
  induction s as [|a s IH]; intros [|j] c H; simpl in *; try discriminate; try lia.
  apply IH in H. lia.
Qed.

Lemma guard_true target seq s :
  guard target seq s = true <->
  pos_i s < String.length target /\ pos_j s < String.length seq.
Proof.
  unfold guard. rewrite andb_true_iff, !Nat.ltb_lt. tauto.
Qed.

Lemma body_some target seq s s' :
  state s <= 2 -> body target seq s = Some s' ->
  pos_i s' = S (pos_i s) /\ pos_j s' = S (pos_j s) /\ state s' <= 2.
Proof.
  intros Hst. unfold body.
  destruct (String.get (pos_j s) seq) as [c|]; [|discriminate].
  destruct (String.get (pos_i s) target) as [t|]; [|discriminate].
  destruct (islower c); [discriminate|].
  destruct (state s =? 0) eqn:E0;
    [|destruct (state s =? 1) eqn:E1; [|destruct (state s =? 2) eqn:E2]];
    repeat match goal with
           | |- context [if ?b then _ else _] => destruct b
           end;
    intros H; try discriminate; try (injection H as <-; simpl; lia).
  apply Nat.eqb_neq in E0, E1, E2. lia.
Qed.

Lemma lockstep_step target seq s s' :
  lockstep target seq s -> guard target seq s = true ->
  body target seq s = Some s' -> lockstep target seq s'.
Proof.
  intros (Hij & Hst & Hle) Hg Hb.
  apply guard_true in Hg. destruct (body_some _ _ _ _ Hst Hb) as (Hi & Hj & Hs).
  unfold lockstep. lia.
Qed.

Lemma loop_returns target seq : forall fuel s,
  lockstep target seq s -> String.length seq - pos_j s < fuel ->
  exists b s', loop fuel target seq s = Some (b, s') /\
    lockstep target seq s' /\
    (b = true -> guard target seq s' = false) /\
    (b = false -> guard target seq s' = true /\ body target seq s' = None).
Proof.
  induction fuel as [|fuel IH]; intros s Hinv Hfuel; [lia|].
  simpl. destruct (guard target seq s) eqn:Hg.
  - destruct (body target seq s) as [s'|] eqn:Hb.
    + apply IH.
      * eapply lockstep_step; eauto.
      * destruct Hinv as (_ & Hst & _).
        destruct (body_some _ _ _ _ Hst Hb) as (_ & Hj & _). 
        apply guard_true in Hg. lia.
    + exists false, s. split; [reflexivity|]. split; [assumption|].
      split; [discriminate|auto].
  - exists true, s. split; [reflexivity|]. split; [assumption|].
    split; [auto|discriminate].
Qed.

Lemma lockstep_init target seq : lockstep target seq init.
Proof. unfold lockstep, init. simpl. lia. Qed.

Lemma run_total target seq :
  exists b s, run target seq = Some (b, s) /\
    lockstep target seq s /\
    (b = true -> guard target seq s = false) /\
    (b = false -> guard target seq s = true /\ body target seq s = None).
Proof.
  apply loop_returns; [apply lockstep_init|]. simpl. lia.
Qed.

Lemma loop_lower target seq j c :
  String.get j seq = Some c -> islower c = true ->
  j < String.length target ->
  forall fuel s, lockstep target seq s -> pos_j s <= j ->
    String.length seq - pos_j s < fuel ->
    exists s', loop fuel target seq s = Some (false, s').
Proof.
  intros Hget Hlow Hj. pose proof (get_Some_lt _ _ _ Hget) as Hlen.
  induction fuel as [|fuel IH]; intros s Hinv Hle Hfuel; [lia|].
  simpl. destruct Hinv as (Hij & Hst & Hmin).
  assert (Hg : guard target seq s = true) by (apply guard_true; lia).
  rewrite Hg. destruct (body target seq s) as [s'|] eqn:Hb; [|eauto].
  destruct (body_some _ _ _ _ Hst Hb) as (Hi' & Hj' & Hs').
  destruct (decide (pos_j s = j)) as [Heq|Hne].
  - unfold body in Hb. rewrite Heq, Hget in Hb.
    destruct (String.get (pos_i s) target); [|discriminate].
    rewrite Hlow in Hb. discriminate.
  - apply IH; [|lia|lia]. unfold lockstep. lia.
Qed.

(** C3, as the code decides it: against the reference "ABCDE" the
    candidate "--BCD--" is rejected, because [i] and [j] advance together
    and its second gap already stands where the core must match; the
    candidate "-BCD-", one leading and one trailing gap around the exactly
    matching core, is accepted; "A-C-E", with gaps inside the core, is
    rejected. *)
Theorem is_aligned_reference_examples :
  _is_aligned "ABCDE" "-BCD-" = true /\
  _is_aligned "ABCDE" "--BCD--" = false /\
  _is_aligned "ABCDE" "A-C-E" = false.
Proof. repeat split; vm_compute; reflexivity. Qed.

(** C3 as stated fails: "--BCD--" is not accepted. *)
Lemma is_aligned_double_gap_not_accepted :
  ~ (_is_aligned "ABCDE" "--BCD--" = true /\
     _is_aligned "ABCDE" "A-C-E" = false).
Proof. intros [H _]. vm_compute in H. discriminate. Qed.

(** C4, as the code decides it: the scan always returns; it returns
    [True] exactly when it has consumed the first
    [min(len(target), len(seq))] positions of both strings without a
    rejecting position, and [False] at a scanned position whose pass
    through the loop body rejects.  So an accepted candidate shorter than
    the reference leaves reference positions unconsumed, as "ABC" and the
    empty candidate do against "ABCDE". *)
Theorem is_aligned_accepts_at_shorter_length target seq :
  (exists b s, run target seq = Some (b, s) /\
     _is_aligned target seq = b /\
     pos_i s = pos_j s /\
     (b = true <->
      pos_j s = Nat.min (String.length target) (String.length seq)) /\
     (b = false <->
      pos_j s < Nat.min (String.length target) (String.length seq) /\
      body target seq s = None)) /\
  _is_aligned "ABCDE" "ABC" = true /\
  _is_aligned "ABCDE" "" = true.
Proof.
  split; [|split; vm_compute; reflexivity].
  destruct (run_total target seq) as (b & s & Hrun & (Hij & Hst & Hmin) & Ht & Hf).
  exists b, s. split; [assumption|].
  split; [unfold _is_aligned; rewrite Hrun; reflexivity|].
  split; [assumption|].
  destruct b.
  - specialize (Ht eq_refl).
    assert (Hn : ~ (pos_i s < String.length target /\
                    pos_j s < String.length seq)).
    { rewrite <- guard_true, Ht. discriminate. }
    split.
    + split; [intros _; lia | reflexivity].
    + split; [discriminate | intros [Hlt _]; lia].
  - destruct (Hf eq_refl) as [Hg Hb]. apply guard_true in Hg.
    split.
    + split; [discriminate | intros E; lia].
    + split; [intros _; split; [lia | assumption] | reflexivity].
Qed.

(** C4 as stated fails: the candidate "ABC" is shorter than the
    reference "ABCDE", the loop ends with [i = 3] of 5 reference
    positions consumed, and the predicate is true. *)
Lemma is_aligned_shorter_candidate_accepted :
  String.length "ABC" < String.length "ABCDE" /\
  run "ABCDE" "ABC" = Some (true, Scan 3 3 1) /\
  _is_aligned "ABCDE" "ABC" = true.
Proof. repeat split; vm_compute; reflexivity || lia. Qed.

(** C5, as the code decides it: a lowercase letter at a position below
    the length of the reference rejects the candidate, whatever the state
    and whatever the rest of the candidate. *)
Theorem is_aligned_lowercase_rejected target seq j c :
  String.get j seq = Some c -> islower c = true ->
  j < String.length target ->
  _is_aligned target seq = false.
Proof.
  intros Hget Hlow Hj.
  destruct (loop_lower target seq j c Hget Hlow Hj
              (S (String.length seq)) init) as [s' Hs'].
  - apply lockstep_init.
  - simpl. lia.
  - simpl. lia.
  - unfold _is_aligned, run. rewrite Hs'. reflexivity.
Qed.

Lemma is_aligned_lowercase_rejected_witness :
  String.get 1 "AbCDE" = Some "b"%char /\ islower "b" = true /\
  1 < String.length "ABCDE" /\
  _is_aligned "ABCDE" "AbCDE" = false.
Proof.
  split; [reflexivity|]. split; [reflexivity|]. split; [simpl; lia|].
  apply (is_aligned_lowercase_rejected "ABCDE" "AbCDE" 1 "b"%char);
    [reflexivity | reflexivity | simpl; lia].
Defined.

(** C5 as stated fails: a lowercase letter beyond the end of the
    reference is never scanned. *)
Lemma is_aligned_lowercase_beyond_reference :
  String.get 2 "ABc" = Some "c"%char /\ islower "c" = true /\
  _is_aligned "AB" "ABc" = true.
Proof. repeat split; vm_compute; reflexivity. Qed.

End AutomatonFacts.

(** * Properties of the gap normalisation *)

Module MaskFacts.

Lemma app_nil (t : string) : EmptyString +:+ t = t.
Proof. reflexivity. Qed.

Lemma app_cons c (s t : string) : String c s +:+ t = String c (s +:+ t).
Proof. reflexivity. Qed.

(** [+:+] is opaque to [simpl]; unfold it by its two equations. *)
Ltac app_simpl := rewrite ?app_cons, ?app_nil; simpl.

Lemma length_app (s t : string) :
  String.length (s +:+ t) = String.length s + String.length t.
Proof. induction s as [|c s IH]; app_simpl; [reflexivity|]. now rewrite IH. Qed.

Lemma length_repeat_char c n : String.length (repeat_char c n) = n.
Proof. induction n as [|n IH]; simpl; [reflexivity|]. now rewrite IH. Qed.

Lemma app_empty_r (s : string) : s +:+ EmptyString = s.
Proof. induction s as [|c s IH]; app_simpl; [reflexivity|]. now rewrite IH. Qed.

Lemma app_assoc (s t u : string) : (s +:+ t) +:+ u = s +:+ t +:+ u.
Proof. induction s as [|c s IH]; app_simpl; [reflexivity|]. now rewrite IH. Qed.

Lemma match_gaps_le s : match_gaps s <= String.length s.
Proof.
  induction s as [|c s IH]; simpl; [lia|].
  destruct (Ascii.eqb c gap); lia.
Qed.

(** A row is its leading gap run followed by a rest that does not start
    with a gap. *)
Lemma leading_split s :
  s = repeat_char gap (match_gaps s) +:+ string_drop (match_gaps s) s /\
  starts_with_gap (string_drop (match_gaps s) s) = false.
Proof.
  induction s as [|c s [IH1 IH2]]; simpl; [auto|].
  destruct (Ascii.eqb c gap) eqn:E; simpl.
  - apply Ascii.eqb_eq in E. subst c. split; [|assumption].
    rewrite app_cons. f_equal. exact IH1.
  - rewrite E. auto.
Qed.

Lemma sub_leading_eq s :
  sub_leading s =
  repeat_char mask (match_gaps s) +:+ string_drop (match_gaps s) s.
Proof.
  unfold sub_leading, _repl.
  destruct (match_gaps s) as [|n] eqn:E; simpl; reflexivity.
Qed.

Lemma contains_drop c n : forall s,
  contains c s = false -> contains c (string_drop n s) = false.
Proof.
  induction n as [|n IH]; intros [|a s] H; simpl in *; auto.
  apply orb_false_iff in H as [_ H]. auto.
Qed.

Lemma drop_all n : forall s,
  String.length s <= n -> string_drop n s = EmptyString.
Proof.
  induction n as [|n IH]; intros [|a s] H; simpl in *; auto; try lia.
  apply IH. lia.
Qed.

Lemma drop_nonempty n : forall s,
  n < String.length s -> nonempty (string_drop n s) = true.
Proof.
  induction n as [|n IH]; intros [|a s] H; simpl in *; auto; try lia.
  apply IH. lia.
Qed.

(** On a row without a newline, [$] matches at the end only. *)
Lemma at_end_single_line s :
  contains newline s = false -> at_end s = negb (nonempty s).
Proof.
  destruct s as [|c [|d s]]; simpl; auto.
  intros H. apply orb_false_iff in H as [H _]. exact H.
Qed.

Lemma match_trailing_single_line s :
  contains newline s = false ->
  match_trailing s =
  if (0 <? match_gaps s) && (match_gaps s =? String.length s)
  then Some (String.length s) else None.
Proof.
  intros Hnl. unfold match_trailing.
  rewrite (at_end_single_line _ (contains_drop _ _ _ Hnl)).
  pose proof (match_gaps_le s) as Hle.
  destruct (0 <? match_gaps s); simpl; [|reflexivity].
  destruct (match_gaps s =? String.length s) eqn:E.
  - apply Nat.eqb_eq in E. rewrite E, drop_all by lia. reflexivity.
  - apply Nat.eqb_neq in E. rewrite drop_nonempty by lia. reflexivity.
Qed.

Lemma match_gaps_repeat n : match_gaps (repeat_char gap n) = n.
Proof. induction n as [|n IH]; simpl; [reflexivity|]. now rewrite IH. Qed.

Lemma all_gaps_eq s :
  match_gaps s = String.length s -> s = repeat_char gap (String.length s).
Proof.
  intros E. pose proof (leading_split s) as [Hl _].
  rewrite E, drop_all, app_empty_r in Hl by lia. exact Hl.
Qed.

Lemma split_trailing_repeat n :
  split_trailing (repeat_char gap n) = (EmptyString, n).
Proof. induction n as [|n IH]; simpl; [reflexivity|]. now rewrite IH. Qed.

Lemma split_trailing_spec s :
  s = (split_trailing s).1 +:+ repeat_char gap (split_trailing s).2 /\
  ends_with_gap (split_trailing s).1 = false /\
  (starts_with_gap (split_trailing s).1 = true -> starts_with_gap s = true).
Proof.
  induction s as [|c s (IH1 & IH2 & IH3)]; simpl; [auto|].
  destruct (split_trailing s) as [core b]; simpl in *.
  destruct core as [|d core]; simpl in *.
  - rewrite app_nil in IH1.
    destruct (Ascii.eqb c gap) eqn:E; simpl.
    + apply Ascii.eqb_eq in E. subst c. rewrite app_nil, <- IH1. auto.
    + rewrite app_cons, app_nil, <- IH1, E. auto.
  - rewrite app_cons, <- IH1. auto.
Qed.

Lemma sub_trailing_single_line s :
  contains newline s = false ->
  sub_trailing s =
  (split_trailing s).1 +:+ repeat_char mask (split_trailing s).2.
Proof.
  induction s as [|c s IH]; intros Hnl; [reflexivity|].
  assert (Hnl' : contains newline s = false)
    by (simpl in Hnl; apply orb_false_iff in Hnl; tauto).
  specialize (IH Hnl').
  cbn [sub_trailing]. rewrite (match_trailing_single_line _ Hnl).
  destruct (match_gaps (String c s) =? String.length (String c s)) eqn:E.
  - apply Nat.eqb_eq in E. rewrite E. rewrite andb_true_r.
    replace (0 <? String.length (String c s)) with true by reflexivity.
    assert (Hs : split_trailing (String c s) =
                 (EmptyString, String.length (String c s))).
    { rewrite (all_gaps_eq _ E) at 1. apply split_trailing_repeat. }
    rewrite Hs. unfold _repl.
    rewrite drop_all by lia. rewrite app_empty_r. reflexivity.
  - rewrite andb_false_r. rewrite IH.
    apply Nat.eqb_neq in E.
    destruct (split_trailing_spec s) as (Hs & _ & _).
    cbn [split_trailing].
    destruct (split_trailing s) as [core b]; simpl in Hs |- *.
    destruct core as [|d core]; simpl; [|reflexivity].
    rewrite app_nil in Hs.
    destruct (Ascii.eqb c gap) eqn:Ec; simpl; [|reflexivity].
    exfalso. apply E. simpl. rewrite Ec. f_equal.
    rewrite Hs, match_gaps_repeat, length_repeat_char. reflexivity.
Qed.

Lemma sub_trailing_after_mask n s :
  sub_trailing (repeat_char mask n +:+ s) =
  repeat_char mask n +:+ sub_trailing s.
Proof.
  induction n as [|n IH]; [reflexivity|].
  simpl repeat_char. rewrite !app_cons. cbn [sub_trailing].
  unfold match_trailing. simpl. now rewrite IH.
Qed.

(** C6: on a row that is a single line, the normalisation turns the
    maximal run of gap characters at the very start and the maximal run
    at the very end into as many mask characters, and leaves everything
    in between, internal gap runs included, as it is; the length of the
    row is unchanged.  "---XYZ---" becomes "***XYZ***" and "XY--Z"
    stays "XY--Z". *)
Theorem mask_row_masks_both_ends row :
  contains newline row = false ->
  (exists a core b,
     row = repeat_char gap a +:+ core +:+ repeat_char gap b /\
     starts_with_gap core = false /\ ends_with_gap core = false /\
     mask_row row = repeat_char mask a +:+ core +:+ repeat_char mask b) /\
  String.length (mask_row row) = String.length row /\
  mask_row "---XYZ---" = "***XYZ***" /\
  mask_row "XY--Z" = "XY--Z".
Proof.
  intros Hnl.
  set (a := match_gaps row). set (rest := string_drop a row).
  destruct (leading_split row) as [Hrow Hstart]. fold a rest in Hrow, Hstart.
  assert (Hnl' : contains newline rest = false) by now apply contains_drop.
  destruct (split_trailing_spec rest) as (Hrest & Hend & Hst).
  assert (Hmask : mask_row row =
    repeat_char mask a +:+ (split_trailing rest).1 +:+
    repeat_char mask (split_trailing rest).2).
  { unfold mask_row. rewrite sub_leading_eq. fold a rest.
    rewrite sub_trailing_after_mask.
    now rewrite (sub_trailing_single_line _ Hnl'). }
  split; [|split; [|split; vm_compute; reflexivity]].
  - exists a, (split_trailing rest).1, (split_trailing rest).2.
    split; [rewrite <- Hrest; exact Hrow|].
    split; [|split; assumption].
    destruct (starts_with_gap (split_trailing rest).1) eqn:E; [|reflexivity].
    rewrite Hst in Hstart by reflexivity. discriminate.
  - apply (f_equal String.length) in Hrow, Hrest.
    rewrite !length_app, !length_repeat_char in Hrow, Hrest.
    rewrite Hmask, !length_app, !length_repeat_char. lia.
Qed.

Lemma mask_row_masks_both_ends_witness :
  contains newline "--A-C-" = false /\
  String.length (mask_row "--A-C-") = String.length "--A-C-".
Proof.
  split; [reflexivity|].
  exact (proj1 (proj2 (mask_row_masks_both_ends "--A-C-" eq_refl))).
Defined.

End MaskFacts.

(** * Properties of the aliasing index *)

Module IndexFacts.
Import Index.

(** The canonical id of the last line of the index that names [a] as the
    alias, when there is such a line. *)
Lemma read_mapping_lines_lookup a : forall lines m0 m,
  read_mapping_lines lines m0 = Ok m ->
  m !! a = match alias_of a lines with
           | Some k => Some k
           | None => m0 !! a
           end.
Proof.
  induction lines as [|l lines IH]; intros m0 m H; simpl in H.
  - injection H as <-. reflexivity.
  - destruct l as [|k [|v [|x l]]]; try discriminate.
    rewrite (IH _ _ H). simpl.
    destruct (alias_of a lines); [reflexivity|].
    destruct (decide (v = a)) as [->|Hne].
    + apply lookup_insert_eq.
    + now apply lookup_insert_ne.
Qed.

Lemma alias_of_absent a : forall lines,
  (forall k, [k; a] ∉ lines) -> alias_of a lines = None.
Proof.
  induction lines as [|l lines IH]; intros H; simpl; [reflexivity|].
  rewrite IH by (intros k Hk; apply (H k); now right).
  destruct l as [|k [|v [|x l]]]; try reflexivity.
  destruct (decide (v = a)) as [->|Hne]; [|reflexivity].
  exfalso. apply (H k). now left.
Qed.

Lemma alias_of_last a k l2 : forall l1,
  (forall k', [k'; a] ∉ l2) -> alias_of a (l1 ++ [k; a] :: l2) = Some k.
Proof.
  intros l1 H. induction l1 as [|l l1 IH]; simpl.
  - rewrite (alias_of_absent _ _ H). now rewrite decide_True.
  - now rewrite IH.
Qed.

(** C9: in a map the index reader has built, an id that the file names as
    an alias resolves to the canonical id of its (last) line; an id the
    file does not name as an alias resolves as it did before the file was
    read, which in a fresh map is the id itself; in general an id without
    an entry resolves to itself; and [read_a3m] opens the block of the
    resolved id. *)
Theorem resolve_alias_or_identity file m0 m :
  read_mapping_idx file m0 = Ok m ->
  (forall lines l1 k a l2,
     file = Some lines -> lines = l1 ++ [k; a] :: l2 ->
     (forall k', [k'; a] ∉ l2) -> resolve m a = k) /\
  (forall id,
     (forall lines k, file = Some lines -> [k; id] ∉ lines) ->
     resolve m id = resolve m0 id) /\
  (forall id, resolve ∅ id = id) /\
  (forall id, m !! id = None -> resolve m id = id) /\
  (forall id k, m !! id = Some k -> resolve m id = k) /\
  (forall blocks id,
     read_a3m blocks m id =
     or_raise FileNotFoundError (blocks !! resolve m id)).
Proof.
  intros Hread. repeat split.
  - intros lines l1 k a l2 -> -> Hlast. simpl in Hread.
    unfold resolve.
    rewrite (read_mapping_lines_lookup a _ _ _ Hread).
    now rewrite alias_of_last.
  - intros id Habsent. unfold resolve. destruct file as [lines|].
    + simpl in Hread. rewrite (read_mapping_lines_lookup id _ _ _ Hread).
      rewrite alias_of_absent; [reflexivity|].
      intros k. now apply Habsent.
    + simpl in Hread. now injection Hread as <-.
  - intros id H. unfold resolve. now rewrite H.
  - intros id k H. unfold resolve. now rewrite H.
Qed.

Lemma resolve_alias_or_identity_witness :
  read_mapping_idx (Some [["H1_A"; "H1_B"]]) ∅ = Ok {["H1_B" := "H1_A"]} /\
  resolve {["H1_B" := "H1_A"]} "H1_B" = "H1_A" /\
  resolve {["H1_B" := "H1_A"]} "H1_A" = "H1_A".
Proof.
  split; [reflexivity|].
  pose proof (resolve_alias_or_identity (Some [["H1_A"; "H1_B"]]) ∅
                {["H1_B" := "H1_A"]} eq_refl)
    as (Halias & Hkeep & Hfresh & _).
  split.
  - apply (Halias [["H1_A"; "H1_B"]] [] "H1_A" "H1_B" []); try reflexivity.
    intros k' H. inversion H.
  - rewrite Hkeep; [apply Hfresh|].
    intros lines k [= <-] H. apply list_elem_of_singleton in H. discriminate.
Defined.

End IndexFacts.

(** * Properties of the hit indexer and the complex assembler *)

Module AssemblerFacts.
Import Index Assembler.

(** ** The result monad *)

Lemma bind_ok {A B : Type} (m : result A) (f : A -> result B) (b : B) :
  (m ≫= f) = Ok b <-> exists a, m = Ok a /\ f a = Ok b.
Proof.
  destruct m as [a|e]; simpl; split.
  - intros H. exists a. auto.
  - intros (a' & [= <-] & H). exact H.
  - discriminate.
  - intros (a' & H & _). discriminate.
Qed.

Lemma or_raise_ok {A : Type} e (o : option A) a :
  or_raise e o = Ok a <-> o = Some a.
Proof. destruct o; simpl; split; congruence. Qed.

(** ** The coverage accumulator *)

Lemma acc_lookup_append_eq pid chain : forall acc,
  acc_lookup pid (acc_append pid chain acc) =
  Some (default [] (acc_lookup pid acc) ++ [chain]).
Proof.
  induction acc as [|[k v] acc IH]; simpl.
  - now rewrite decide_True.
  - destruct (decide (k = pid)); simpl.
    + now rewrite decide_True.
    + now rewrite decide_False.
Qed.

Lemma acc_lookup_append_ne pid chain k : forall acc,
  k <> pid ->
  acc_lookup k (acc_append pid chain acc) = acc_lookup k acc.
Proof.
  intros acc Hne. induction acc as [|[k' v] acc IH]; simpl.
  - rewrite decide_False; congruence.
  - destruct (decide (k' = pid)) as [->|]; simpl.
    + rewrite !decide_False; congruence.
    + now rewrite IH.
Qed.

Lemma acc_append_keys pid chain : forall acc,
  (acc_append pid chain acc).*1 =
  if decide (pid ∈ acc.*1) then acc.*1 else acc.*1 ++ [pid].
Proof.
  induction acc as [|[k v] acc IH].
  - destruct (decide (pid ∈ ([] : coverage).*1)) as [H|_];
      [inversion H|reflexivity].
  - cbn [acc_append]. destruct (decide (k = pid)) as [->|Hne].
    + rewrite decide_True; [reflexivity|]. rewrite fmap_cons. now left.
    + rewrite !fmap_cons, IH. cbn [fst].
      destruct (decide (pid ∈ acc.*1)).
      * rewrite decide_True; [reflexivity|]. now right.
      * rewrite decide_False; [reflexivity|].
        intros H. apply elem_of_cons in H as [->|H]; congruence.
Qed.

Lemma acc_append_NoDup pid chain acc :
  NoDup acc.*1 -> NoDup (acc_append pid chain acc).*1.
Proof.
  intros H. rewrite acc_append_keys. case_decide; [assumption|].
  apply NoDup_app. repeat split; [assumption| |apply NoDup_singleton].
  intros x Hx Hx'. apply list_elem_of_singleton in Hx'. congruence.
Qed.

Lemma acc_lookup_elem_of pid v : forall acc,
  NoDup acc.*1 -> (acc_lookup pid acc = Some v <-> (pid, v) ∈ acc).
Proof.
  induction acc as [|[k w] acc IH]; simpl; intros Hnd.
  - split; [discriminate|]. intros H. inversion H.
  - apply NoDup_cons in Hnd as [Hk Hnd]. specialize (IH Hnd).
    destruct (decide (k = pid)) as [->|Hne].
    + split.
      * intros [= ->]. now left.
      * intros H. apply elem_of_cons in H as [[= ->]|H]; [reflexivity|].
        exfalso. apply Hk. apply list_elem_of_fmap. now exists (pid, v).
    + rewrite IH. split.
      * intros H. now right.
      * intros H. apply elem_of_cons in H as [[= -> ->]|H]; congruence.
Qed.

(** ** The completeness filter *)

Lemma is_aligned_true sh pid chain_list :
  _is_aligned sh pid chain_list = true <->
  is_Some (db_attr_idx sh !! pid) /\
  exists required, db_chain_idx sh !! pid = Some required /\
                   length chain_list = length required.
Proof.
  unfold _is_aligned. case_decide as Hattr.
  - destruct (db_chain_idx sh !! pid) as [required|].
    + rewrite Nat.eqb_eq. split.
      * intros H. split; [assumption|]. exists required. auto.
      * intros (_ & r & [= <-] & H). auto.
    + split; [discriminate|]. intros (_ & r & H & _). discriminate.
  - split; [discriminate|]. tauto.
Qed.

Lemma filter_aligned_NoDup sh acc :
  NoDup acc.*1 -> NoDup (filter_aligned sh acc).*1.
Proof.
  intros H. eapply sublist_NoDup; [exact H|].
  unfold filter_aligned. apply fmap_sublist, sublist_filter.
Qed.

Lemma filter_aligned_lookup sh acc pid chain_list :
  NoDup acc.*1 ->
  (acc_lookup pid (filter_aligned sh acc) = Some chain_list <->
   acc_lookup pid acc = Some chain_list /\
   _is_aligned sh pid chain_list = true).
Proof.
  intros Hnd.
  rewrite (acc_lookup_elem_of _ _ _ (filter_aligned_NoDup sh _ Hnd)).
  rewrite (acc_lookup_elem_of _ _ _ Hnd).
  unfold filter_aligned. rewrite list_elem_of_filter. simpl. tauto.
Qed.

(** ** The hit rows *)

Lemma add_hits_ok sh data a3m_list chains : forall new_a3m_dict lines out,
  add_hits sh data a3m_list chains new_a3m_dict lines = Ok out <->
  exists hits,
    Forall2 (fun kv h =>
               hit_header sh kv.1 kv.2 = Ok h.1 /\
               hit_row sh data a3m_list kv.1 kv.2 0 chains EmptyString
               = Ok h.2) new_a3m_dict hits /\
    out = lines ++ hit_lines hits.
Proof.
  induction new_a3m_dict as [|[pid cl] rest IH]; intros lines out; simpl.
  - split.
    + intros [= <-]. exists []. split; [constructor|].
      now rewrite app_nil_r.
    + intros (hits & Hall & ->). inversion Hall. simpl.
      now rewrite app_nil_r.
  - rewrite bind_ok. split.
    + intros (d & Hd & H). apply bind_ok in H as (s & Hs & H).
      apply IH in H as (hits & Hall & ->).
      exists ((d, s) :: hits). split; [constructor; auto|].
      simpl. now rewrite <- app_assoc.
    + intros (hits & Hall & ->).
      inversion Hall as [|kv [d s] ? hits' [Hd Hs] Hall']; subst.
      simpl in *. exists d. split; [assumption|].
      apply bind_ok. exists s. split; [assumption|].
      apply IH. exists hits'. split; [assumption|].
      now rewrite <- app_assoc.
Qed.

(** ** The target row *)

Lemma length_concat_rows (l : list string) :
  String.length (concat_rows l) = sum_list (String.length <$> l).
Proof.
  induction l as [|s l IH]; [reflexivity|].
  cbn [concat_rows]. rewrite MaskFacts.length_app, IH. reflexivity.
Qed.

Lemma concat_rows_app (l1 l2 : list string) :
  concat_rows (l1 ++ l2) = concat_rows l1 +:+ concat_rows l2.
Proof.
  induction l1 as [|s l1 IH]; [reflexivity|].
  cbn [app concat_rows]. now rewrite IH, MaskFacts.app_assoc.
Qed.

(** Where the span of chain [k] lies. *)
Lemma spans_lookup : forall lens n k l,
  lens !! k = Some l ->
  spans n lens !! k =
  Some (n + Z.of_nat (sum_list (take k lens)) + 100 * Z.of_nat k,
        n + Z.of_nat (sum_list (take (S k) lens)) + 100 * Z.of_nat k - 1)%Z.
Proof.
  induction lens as [|l0 lens IH]; intros n k l H; [discriminate|].
  destruct k as [|k]; simpl in H.
  - injection H as ->. simpl. f_equal. f_equal; lia.
  - cbn [spans]. change ((?x :: ?l) !! S k) with (l !! k).
    rewrite (IH _ _ _ H). simpl. f_equal. f_equal; lia.
Qed.

Lemma add_target_ok a3m_list : forall chains i target_seq domains n res,
  add_target a3m_list i chains (target_seq, domains, n) = Ok res ->
  exists queries,
    Forall2 (fun block q => exists d, _seq_at_i block 0 = Ok (q, d))
      (take (length chains) (drop i a3m_list)) queries /\
    length queries = length chains /\
    res.1.1 = target_seq +:+ concat_rows queries /\
    res.1.2 = domains ++ spans n (String.length <$> queries).
Proof.
  induction chains as [|chain chains IH]; intros i tseq doms n res H;
    cbn [add_target] in H.
  - injection H as <-. exists []. simpl.
    rewrite MaskFacts.app_empty_r, app_nil_r. repeat split. constructor.
  - apply bind_ok in H as (block & Hb & H). apply or_raise_ok in Hb.
    apply bind_ok in H as ([q d] & Hq & H).
    apply IH in H as (queries & Hall & Hlen & Hs & Hd).
    exists (q :: queries). split; [|split; [|split]].
    + rewrite (drop_S _ _ _ Hb). cbn [length take].
      constructor; [eauto|assumption].
    + simpl. now rewrite Hlen.
    + rewrite Hs. cbn [concat_rows]. now rewrite MaskFacts.app_assoc.
    + rewrite Hd. rewrite <- app_assoc. reflexivity.
Qed.

Lemma Forall2_compose {A B C : Type} (R : A -> B -> Prop)
    (S : B -> C -> Prop) : forall l1 l2 l3,
  Forall2 R l1 l2 -> Forall2 S l2 l3 ->
  Forall2 (fun a c => exists b, R a b /\ S b c) l1 l3.
Proof.
  intros l1 l2 l3 H. revert l3.
  induction H as [|a b l1 l2 Hab H IH]; intros l3 H3; inversion H3; subst.
  - constructor.
  - constructor; eauto.
Qed.

(** ** The rows of a hit *)

Lemma select_row_none sh data pid tc : forall chain_list found,
  select_row sh data pid tc chain_list = Ok found ->
  (forall chain r, chain ∈ chain_list ->
     record_of sh data pid chain = Ok r -> rec_target_chain r <> tc) ->
  found = None.
Proof.
  induction chain_list as [|chain rest IH]; intros found H Hno;
    cbn [select_row] in H.
  - now injection H as <-.
  - apply bind_ok in H as (r & Hr & H).
    destruct (decide (rec_target_chain r = tc)) as [Heq|Hne].
    + exfalso. apply (Hno chain r); [now left|assumption|assumption].
    + apply IH; [assumption|].
      intros c r' Hin. apply Hno. now right.
Qed.

(** A row that was selected is the masked row of a record tagged with
    the target chain. *)
Lemma select_row_some sh data pid tc : forall chain_list s,
  select_row sh data pid tc chain_list = Ok (Some s) ->
  exists chain r, chain ∈ chain_list /\
    record_of sh data pid chain = Ok r /\
    rec_target_chain r = tc /\ s = mask_row (rec_seq r).
Proof.
  induction chain_list as [|chain rest IH]; intros s H;
    cbn [select_row] in H; [discriminate|].
  apply bind_ok in H as (r & Hr & H).
  destruct (decide (rec_target_chain r = tc)) as [Heq|Hne].
  - injection H as <-. exists chain, r. repeat split; auto. now left.
  - apply IH in H as (c & r' & Hin & H). exists c, r'. split; [now right|auto].
Qed.

Lemma hit_row_ok sh data a3m_list pid chain_list :
  forall chains i acc row,
  hit_row sh data a3m_list pid chain_list i chains acc = Ok row ->
  exists parts,
    row = acc +:+ concat_rows parts /\ length parts = length chains /\
    forall k tc, chains !! k = Some tc ->
      exists s, parts !! k = Some s /\
        hit_seq_at sh data a3m_list pid chain_list (i + k) tc = Ok s.
Proof.
  induction chains as [|tc0 chains IH]; intros i acc row H;
    cbn [hit_row] in H.
  - injection H as <-. exists []. rewrite MaskFacts.app_empty_r.
    repeat split. intros k tc Hk. discriminate.
  - apply bind_ok in H as (s0 & Hs0 & H).
    apply IH in H as (parts & -> & Hlen & Hparts).
    exists (s0 :: parts). split; [|split].
    + cbn [concat_rows]. now rewrite MaskFacts.app_assoc.
    + simpl. now rewrite Hlen.
    + intros [|k] tc Hk; simpl in Hk.
      * injection Hk as <-. exists s0. rewrite Nat.add_0_r. auto.
      * rewrite Nat.add_succ_r. apply (Hparts k tc Hk).
Qed.

(** C7, as the code assembles it: the row of a hit is the concatenation
    of one contribution per target chain, and where no record of the hit
    is tagged with the target chain the contribution is the mask
    character ['*'], not the gap character, repeated over the length of
    that target chain's query. *)
Theorem uncovered_chain_is_masked
    sh align_data_dict a3m_list pid chain_list target_chain_list row :
  hit_row sh align_data_dict a3m_list pid chain_list 0 target_chain_list
    EmptyString = Ok row ->
  exists parts,
    row = concat_rows parts /\
    length parts = length target_chain_list /\
    forall i target_chain,
      target_chain_list !! i = Some target_chain ->
      (forall chain r, chain ∈ chain_list ->
         record_of sh align_data_dict pid chain = Ok r ->
         rec_target_chain r <> target_chain) ->
      exists block seq desc,
        a3m_list !! i = Some block /\
        _seq_at_i block 0 = Ok (seq, desc) /\
        parts !! i = Some (repeat_char mask (String.length seq)).
Proof.
  intros H. apply hit_row_ok in H as (parts & -> & Hlen & Hparts).
  exists parts. split; [reflexivity|]. split; [assumption|].
  intros i tc Hi Hno. destruct (Hparts i tc Hi) as (s & Hs & Hat).
  simpl in Hat. unfold hit_seq_at in Hat.
  apply bind_ok in Hat as (block & Hb & Hat). apply or_raise_ok in Hb.
  apply bind_ok in Hat as ([seq desc] & Hq & Hat).
  apply bind_ok in Hat as (found & Hsel & [= <-]).
  rewrite (select_row_none _ _ _ _ _ _ Hsel Hno) in Hs.
  exists block, seq, desc. auto.
Qed.

Section Codec.

Variable decompose_pid : string -> string * label * option string.
Variable seq_index_split : string -> result (list (Z * Z)).
Variable seq_index_join : list (Z * Z) -> string.
Variable set_iter : gset string -> list string.

Local Abbreviation credit := (credit decompose_pid).
Local Abbreviation align_row := (align_row decompose_pid seq_index_split set_iter).
Local Abbreviation align_rows := (align_rows decompose_pid seq_index_split set_iter).
Local Abbreviation align_a3m := (align_a3m decompose_pid seq_index_split set_iter).
Local Abbreviation read_a3m_dict :=
  (read_a3m_dict decompose_pid seq_index_split set_iter).
Local Abbreviation align_complex :=
  (align_complex decompose_pid seq_index_split seq_index_join set_iter).

Lemma credit_NoDup acc id : NoDup acc.*1 -> NoDup (credit acc id).*1.
Proof.
  unfold Assembler.credit. destruct (decompose_pid id) as [[pid chain] d].
  apply acc_append_NoDup.
Qed.

Lemma foldl_credit_NoDup ids : forall acc,
  NoDup acc.*1 -> NoDup (foldl credit acc ids).*1.
Proof.
  induction ids as [|id ids IH]; intros acc H; simpl; [assumption|].
  apply IH. now apply credit_NoDup.
Qed.

Lemma align_row_NoDup md tc st seq desc st' :
  align_row md tc st seq desc = Ok st' ->
  NoDup st.2.*1 -> NoDup st'.2.*1.
Proof.
  unfold Assembler.align_row. destruct st as [data cov].
  intros H. apply bind_ok in H as (id & _ & H).
  destruct (decompose_pid id) as [[pid chain] d].
  apply bind_ok in H as (doms & _ & [= <-]). simpl.
  apply foldl_credit_NoDup.
Qed.

Lemma align_rows_NoDup md tc : forall rows st st',
  align_rows md tc st rows = Ok st' ->
  NoDup st.2.*1 -> NoDup st'.2.*1.
Proof.
  induction rows as [|[seq desc] rows IH]; intros st st' H Hnd; simpl in H.
  - now injection H as <-.
  - apply bind_ok in H as (st1 & H1 & H).
    eapply IH; [exact H|]. eapply align_row_NoDup; eauto.
Qed.

Lemma align_a3m_NoDup block md st tc st' :
  align_a3m block md st tc = Ok st' ->
  NoDup st.2.*1 -> NoDup st'.2.*1.
Proof.
  unfold Assembler.align_a3m. destruct block as [seqs descs].
  apply align_rows_NoDup.
Qed.

Lemma read_a3m_dict_NoDup sh uri tm pid : forall chains l st l' st',
  read_a3m_dict sh uri tm pid chains l st = Ok (l', st') ->
  NoDup st.2.*1 -> NoDup st'.2.*1.
Proof.
  induction chains as [|chain chains IH]; intros l st l' st' H Hnd;
    simpl in H.
  - now injection H as <- <-.
  - apply bind_ok in H as (block & _ & H).
    apply bind_ok in H as (st1 & H1 & H).
    eapply IH; [exact H|]. eapply align_a3m_NoDup; eauto.
Qed.

(** C1: after every chain of the target has been folded through
    [align_a3m], a hit of the coverage accumulator is in [new_a3m_dict]
    exactly when its base id has an entry in the attribute index, an
    entry in the chain-membership index, and as many accumulated chain
    labels as the membership index lists chains.  The rows
    [align_complex] returns after the two target lines are those of
    the retained hits, in order; the other hits are never looked at, so
    the call returns whenever the target and the retained hits
    assemble. *)
Theorem align_complex_retains_complete_hits
    sh target_uri target_mapping_idx target_pid target_chain_list
    a3m_list align_data_dict a3m_dict :
  read_a3m_dict sh target_uri target_mapping_idx target_pid
    target_chain_list [] (∅, []) = Ok (a3m_list, (align_data_dict, a3m_dict)) ->
  (forall pid chain_list,
     acc_lookup pid (filter_aligned sh a3m_dict) = Some chain_list <->
     acc_lookup pid a3m_dict = Some chain_list /\
     is_Some (db_attr_idx sh !! pid) /\
     exists required, db_chain_idx sh !! pid = Some required /\
                      length chain_list = length required) /\
  (forall item out cov,
     align_complex sh target_uri target_mapping_idx
       (target_pid, target_chain_list) = Ok (item, out, cov) ->
     item = (target_pid, target_chain_list) /\ cov = a3m_dict /\
     exists target_desc target_seq hits,
       out = target_desc :: target_seq :: hit_lines hits /\
       Forall2 (fun kv h =>
                  hit_header sh kv.1 kv.2 = Ok h.1 /\
                  hit_row sh align_data_dict a3m_list kv.1 kv.2 0
                    target_chain_list EmptyString = Ok h.2)
         (filter_aligned sh a3m_dict) hits) /\
  (forall target_row,
     add_target a3m_list 0 target_chain_list (EmptyString, [], 1%Z)
     = Ok target_row ->
     (forall kv, kv ∈ filter_aligned sh a3m_dict ->
        (exists d, hit_header sh kv.1 kv.2 = Ok d) /\
        (exists s, hit_row sh align_data_dict a3m_list kv.1 kv.2 0
                     target_chain_list EmptyString = Ok s)) ->
     exists out,
       align_complex sh target_uri target_mapping_idx
         (target_pid, target_chain_list)
       = Ok (target_pid, target_chain_list, out, a3m_dict)).
Proof.
  intros Hread.
  assert (Hnd : NoDup a3m_dict.*1).
  { apply (read_a3m_dict_NoDup _ _ _ _ _ _ _ _ _ Hread). constructor. }
  split; [|split].
  - intros pid chain_list.
    rewrite (filter_aligned_lookup _ _ _ _ Hnd), is_aligned_true.
    reflexivity.
  - intros item out cov H. unfold Assembler.align_complex in H.
    rewrite Hread in H. simpl in H.
    apply bind_ok in H as ([[tseq doms] n] & Ht & H).
    apply bind_ok in H as (lines & Hhits & [= <- <- <-]).
    split; [reflexivity|]. split; [reflexivity|].
    apply add_hits_ok in Hhits as (hits & Hall & ->).
    eexists _, _, hits. split; [reflexivity|assumption].
  - intros [[tseq doms] n] Ht Hall.
    unfold Assembler.align_complex. rewrite Hread. simpl.
    rewrite Ht. simpl.
    assert (Hex : exists hits,
      Forall2 (fun kv h =>
                 hit_header sh kv.1 kv.2 = Ok h.1 /\
                 hit_row sh align_data_dict a3m_list kv.1 kv.2 0
                   target_chain_list EmptyString = Ok h.2)
        (filter_aligned sh a3m_dict) hits).
    { induction (filter_aligned sh a3m_dict) as [|kv l IH].
      - exists []. constructor.
      - destruct (Hall kv) as [[d Hd] [s Hs]]; [now left|].
        destruct IH as [hits Hhits].
        { intros kv' Hin. apply Hall. now right. }
        exists ((d, s) :: hits). constructor; auto. }
    destruct Hex as [hits Hhits].
    eexists. 
    match goal with
    | |- (?m ≫= _) = _ =>
        assert (Hm : m = Ok ([">" +:+ target_pid +:+ " domains:" +:+
                               seq_index_join doms; tseq] ++ hit_lines hits))
    end.
    { apply add_hits_ok. exists hits. auto. }
    rewrite Hm. simpl. reflexivity.
Qed.


(** ** The blocks of the target chains *)

Lemma read_a3m_dict_blocks sh uri tm pid : forall chains l st l' st',
  read_a3m_dict sh uri tm pid chains l st = Ok (l', st') ->
  exists blocks,
    l' = l ++ blocks /\
    Forall2 (fun chain block =>
               read_a3m uri tm (compose_key pid (Some chain)) = Ok block)
      chains blocks.
Proof.
  induction chains as [|chain chains IH]; intros l st l' st' H;
    cbn [Assembler.read_a3m_dict] in H.
  - injection H as <- <-. exists []. rewrite app_nil_r.
    split; [reflexivity|constructor].
  - apply bind_ok in H as (block & Hb & H).
    apply bind_ok in H as (st1 & _ & H).
    apply IH in H as (blocks & -> & Hall).
    exists (block :: blocks). rewrite <- app_assoc.
    split; [reflexivity|]. now constructor.
Qed.

(** C2, as the code builds the target row: the target sequence is the
    queries of the chains joined with nothing between them, so its
    length is the sum of the query lengths; the 100 positions between
    consecutive chains are counted in the domain spans of the header
    only, where chain [k] (from 0) spans the positions from
    [1 + (earlier query lengths) + 100 * k] to
    [(query lengths up to chain k) + 100 * k]. *)
Theorem target_row_is_unpadded
    sh target_uri target_mapping_idx target_pid target_chain_list
    item out cov :
  align_complex sh target_uri target_mapping_idx
    (target_pid, target_chain_list) = Ok (item, out, cov) ->
  exists queries rest,
    Forall2 (fun chain q => exists block,
               read_a3m target_uri target_mapping_idx
                 (compose_key target_pid (Some chain)) = Ok block /\
               exists d, _seq_at_i block 0 = Ok (q, d))
      target_chain_list queries /\
    out = (">" +:+ target_pid +:+ " domains:" +:+
           seq_index_join (spans 1 (String.length <$> queries)))
          :: concat_rows queries :: rest /\
    String.length (concat_rows queries) =
    sum_list (String.length <$> queries) /\
    forall k q, queries !! k = Some q ->
      spans 1 (String.length <$> queries) !! k =
      Some (1 + Z.of_nat (sum_list (take k (String.length <$> queries)))
              + 100 * Z.of_nat k,
            1 + Z.of_nat (sum_list
                            (take (S k) (String.length <$> queries)))
              + 100 * Z.of_nat k - 1)%Z.
Proof.
  intros H. unfold Assembler.align_complex in H.
  apply bind_ok in H as ([a3m_list [data a3m_dict]] & Hread & H).
  apply bind_ok in H as ([[tseq doms] n] & Ht & H).
  apply bind_ok in H as (lines & Hhits & [= <- <- <-]).
  apply read_a3m_dict_blocks in Hread as (blocks & -> & Hblocks).
  apply add_target_ok in Ht as (queries & Hq & Hlen & Hs & Hd).
  simpl in Hs, Hd, Hq. subst tseq doms.
  apply add_hits_ok in Hhits as (hits & _ & ->).
  exists queries, (hit_lines hits).
  split; [|split; [reflexivity|split]].
  - eapply Forall2_compose; [exact Hblocks|].
    apply Forall2_length in Hblocks.
    rewrite drop_0, take_ge in Hq by lia. exact Hq.
  - apply length_concat_rows.
  - intros k q Hk. apply (spans_lookup _ _ _ (String.length q)).
    rewrite list_lookup_fmap, Hk. reflexivity.
Qed.

(** ** The rows of an alignment block *)

Local Abbreviation registered :=
  (registered decompose_pid seq_index_split).

Lemma align_rows_ok md tc : forall rows st st',
  align_rows md tc st rows = Ok st' ->
  exists regs,
    Forall2 (registered tc) rows regs /\
    st'.1 = foldl (fun m reg => <[reg.1 := reg.2]> m) st.1 regs /\
    st'.2 = foldl credit st.2
              (flat_map (fun reg => set_iter (pdb_id_list md reg.1)) regs).
Proof.
  induction rows as [|[seq desc] rows IH]; intros st st' H;
    cbn [Assembler.align_rows] in H.
  - injection H as <-. exists []. repeat split. constructor.
  - apply bind_ok in H as (st1 & H1 & H).
    apply IH in H as (regs & Hall & Hstore & Hcov).
    unfold Assembler.align_row in H1. destruct st as [data cov].
    apply bind_ok in H1 as (id & Hid & H1).
    destruct (decompose_pid id) as [[pid chain] domains] eqn:Hdec.
    apply bind_ok in H1 as (doms & Hdoms & [= <-]).
    exists ((compose_key pid chain, AlignRecord doms seq desc tc) :: regs).
    split; [|split].
    + constructor; [|assumption].
      exists id, pid, chain, domains. simpl. auto 10.
    + rewrite Hstore. reflexivity.
    + rewrite Hcov. simpl. now rewrite foldl_app.
Qed.

Lemma credit_eq acc id :
  credit acc id =
  acc_append (decompose_pid id).1.1 (decompose_pid id).1.2 acc.
Proof.
  unfold Assembler.credit. now destruct (decompose_pid id) as [[pid chain] d].
Qed.

Lemma foldl_credit_eq ids : forall acc,
  foldl credit acc ids =
  foldl (fun acc id =>
           acc_append (decompose_pid id).1.1 (decompose_pid id).1.2 acc)
    acc ids.
Proof.
  induction ids as [|id ids IH]; intros acc; simpl; [reflexivity|].
  now rewrite credit_eq, IH.
Qed.

(** C8, as the code registers a block: the rows after the first are
    registered in order, each under the key [base_id_chain] (or
    [base_id] when chainless) with a record tagged with the target
    chain; and for the key of each row and for each of its known
    aliases, visited once each, the chain label of that identifier (not
    the label of the hit) is appended to the coverage entry of that
    identifier's base id.  The first row is not registered: the result
    does not depend on it. *)
Theorem align_a3m_registers_rows block mapping_dict align_dict
    target_chain align_dict' :
  (forall X, set_iter X ≡ₚ elements X) ->
  align_a3m block mapping_dict align_dict target_chain = Ok align_dict' ->
  (exists regs,
     Forall2 (registered target_chain)
       (zip (drop 1 block.1) (drop 1 block.2)) regs /\
     align_dict'.1 =
       foldl (fun m reg => <[reg.1 := reg.2]> m) align_dict.1 regs /\
     align_dict'.2 =
       foldl (fun acc id =>
                acc_append (decompose_pid id).1.1 (decompose_pid id).1.2
                  acc)
         align_dict.2
         (flat_map (fun reg => set_iter (pdb_id_list mapping_dict reg.1))
            regs) /\
     forall reg, reg ∈ regs ->
       NoDup (set_iter (pdb_id_list mapping_dict reg.1)) /\
       forall id, id ∈ set_iter (pdb_id_list mapping_dict reg.1) <->
                  id = reg.1 \/ id ∈ default [] (mapping_dict !! reg.1)) /\
  (forall seq desc seq' desc' seqs descs,
     align_a3m (seq :: seqs, desc :: descs) mapping_dict align_dict
       target_chain =
     align_a3m (seq' :: seqs, desc' :: descs) mapping_dict align_dict
       target_chain).
Proof.
  intros Hiter H. split; [|reflexivity].
  unfold Assembler.align_a3m in H. destruct block as [seqs descs].
  apply align_rows_ok in H as (regs & Hall & Hstore & Hcov).
  exists regs. split; [exact Hall|]. split; [exact Hstore|].
  split; [now rewrite <- foldl_credit_eq|].
  intros reg _. split.
  - rewrite Hiter. apply NoDup_elements.
  - intros id. rewrite Hiter, elem_of_elements.
    unfold pdb_id_list. rewrite elem_of_union, elem_of_singleton,
      elem_of_list_to_set. reflexivity.
Qed.

End Codec.
End AssemblerFacts.

(** * The assembler on concrete complexes *)

Module ExampleFacts.
Import Index Assembler Examples.

Lemma set_iter_elements (X : gset string) : Codec.set_iter X ≡ₚ elements X.
Proof. reflexivity. Qed.

Lemma read_paired :
  read_a3m_dict db blocks_paired ∅ "T1" ["A"; "B"] [] (∅, []) =
  Ok ([block_a; (["WXYZ"; "WX--"], ["T1_B"; "H1_B/1-2"])],
      (records_paired, [("H1", [Some "A"; Some "B"])])).
Proof. vm_compute. reflexivity. Qed.

Lemma align_complex_paired :
  align_complex db blocks_paired ∅ target =
  Ok (target,
      [">T1 domains:1-5,106-109"; "ABCDEWXYZ";
       ">H1 chains:A,B {}"; "*BCD*WX**"],
      [("H1", [Some "A"; Some "B"])]).
Proof. vm_compute. reflexivity. Qed.

Lemma align_complex_retains_complete_hits_witness :
  read_a3m_dict db blocks_paired ∅ "T1" ["A"; "B"] [] (∅, []) =
  Ok ([block_a; (["WXYZ"; "WX--"], ["T1_B"; "H1_B/1-2"])],
      (records_paired, [("H1", [Some "A"; Some "B"])])) /\
  (acc_lookup "H1" (filter_aligned db [("H1", [Some "A"; Some "B"])])
     = Some [Some "A"; Some "B"] <->
   acc_lookup "H1" [("H1", [Some "A"; Some "B"])]
     = Some [Some "A"; Some "B"] /\
   is_Some (db_attr_idx db !! "H1") /\
   exists required, db_chain_idx db !! "H1" = Some required /\
                    length [Some "A"; Some "B"] = length required).
Proof.
  split; [exact read_paired|].
  exact (proj1 (AssemblerFacts.align_complex_retains_complete_hits
                  Codec.decompose_pid Codec.seq_index_split
                  Codec.seq_index_join Codec.set_iter
                  db blocks_paired ∅ "T1" ["A"; "B"] _ _ _ read_paired)
           "H1" [Some "A"; Some "B"]).
Defined.

(** C2 as stated fails: the two queries have 5 and 4 residues and the
    emitted target sequence has 9, not 5 + 4 + 100. *)
Lemma target_row_has_no_padding :
  align_complex db blocks_paired ∅ target =
  Ok (target,
      [">T1 domains:1-5,106-109"; "ABCDEWXYZ";
       ">H1 chains:A,B {}"; "*BCD*WX**"],
      [("H1", [Some "A"; Some "B"])]) /\
  read_a3m blocks_paired ∅ "T1_A" = Ok block_a /\
  _seq_at_i block_a 0 = Ok ("ABCDE", "T1_A") /\
  read_a3m blocks_paired ∅ "T1_B"
    = Ok (["WXYZ"; "WX--"], ["T1_B"; "H1_B/1-2"]) /\
  String.length "ABCDEWXYZ" <>
  String.length "ABCDE" + String.length "WXYZ" + 100 * (2 - 1).
Proof. repeat split; try (vm_compute; reflexivity). vm_compute. lia. Qed.

Lemma target_row_is_unpadded_witness :
  align_complex db blocks_paired ∅ target =
  Ok (target,
      [">T1 domains:1-5,106-109"; "ABCDEWXYZ";
       ">H1 chains:A,B {}"; "*BCD*WX**"],
      [("H1", [Some "A"; Some "B"])]) /\
  exists queries,
    "ABCDEWXYZ" = concat_rows queries /\
    String.length (concat_rows queries) =
    sum_list (String.length <$> queries).
Proof.
  split; [exact align_complex_paired|].
  destruct (AssemblerFacts.target_row_is_unpadded
              Codec.decompose_pid Codec.seq_index_split
              Codec.seq_index_join Codec.set_iter
              db blocks_paired ∅ "T1" ["A"; "B"] _ _ _ align_complex_paired)
    as (queries & rest & _ & Hout & Hlen & _).
  exists queries. split; [|exact Hlen].
  injection Hout as _ Hseq _. exact Hseq.
Defined.

Lemma no_record_on_chain_b chain r :
  chain ∈ [Some "A"; Some "B"] ->
  record_of db records_one_sided "H1" chain = Ok r ->
  rec_target_chain r <> "B".
Proof.
  intros Hin Hr.
  apply elem_of_cons in Hin as [->|Hin];
    [|apply list_elem_of_singleton in Hin as ->];
    vm_compute in Hr; injection Hr as <-; discriminate.
Qed.

Lemma hit_row_one_sided :
  hit_row db records_one_sided [block_a; (["WXYZ"], ["T1_B"])] "H1"
    [Some "A"; Some "B"] 0 ["A"; "B"] EmptyString = Ok "*BCD*****".
Proof. vm_compute. reflexivity. Qed.

(** C7 as stated fails: no record of H1 is tagged with chain B of the
    target, whose query has 4 residues, and the contribution of chain B
    is four mask characters, not four gap characters. *)
Lemma uncovered_chain_is_not_gaps :
  read_a3m_dict db blocks_one_sided ∅ "T1" ["A"; "B"] [] (∅, []) =
  Ok ([(["ABCDE"; "-BCD-"; "ABC--"], ["T1_A"; "H1_A/2-4"; "H1_B/1-3"]);
       (["WXYZ"], ["T1_B"])],
      (records_one_sided, [("H1", [Some "A"; Some "B"])])) /\
  (forall chain r, chain ∈ [Some "A"; Some "B"] ->
     record_of db records_one_sided "H1" chain = Ok r ->
     rec_target_chain r <> "B") /\
  hit_seq_at db records_one_sided
    [(["ABCDE"; "-BCD-"; "ABC--"], ["T1_A"; "H1_A/2-4"; "H1_B/1-3"]);
     (["WXYZ"], ["T1_B"])] "H1" [Some "A"; Some "B"] 1 "B" = Ok "****" /\
  "****" <> repeat_char gap (String.length "WXYZ") /\
  align_complex db blocks_one_sided ∅ target =
  Ok (target,
      [">T1 domains:1-5,106-109"; "ABCDEWXYZ";
       ">H1 chains:A,B {}"; "*BCD*****"],
      [("H1", [Some "A"; Some "B"])]).
Proof.
  split; [vm_compute; reflexivity|].
  split; [exact no_record_on_chain_b|].
  split; [vm_compute; reflexivity|].
  split; [discriminate|vm_compute; reflexivity].
Qed.

Lemma uncovered_chain_is_masked_witness :
  hit_row db records_one_sided [block_a; (["WXYZ"], ["T1_B"])] "H1"
    [Some "A"; Some "B"] 0 ["A"; "B"] EmptyString = Ok "*BCD*****" /\
  exists parts,
    "*BCD*****" = concat_rows parts /\ length parts = 2 /\
    parts !! 1 = Some (repeat_char mask (String.length "WXYZ")).
Proof.
  split; [exact hit_row_one_sided|].
  destruct (AssemblerFacts.uncovered_chain_is_masked
              db records_one_sided [block_a; (["WXYZ"], ["T1_B"])] "H1"
              [Some "A"; Some "B"] ["A"; "B"] _ hit_row_one_sided)
    as (parts & Hrow & Hlen & Hparts).
  exists parts. split; [exact Hrow|]. split; [exact Hlen|].
  destruct (Hparts 1 "B" eq_refl no_record_on_chain_b)
    as (block & seq & desc & Hb & Hq & Hp).
  injection Hb as <-. injection Hq as <- _. exact Hp.
Defined.

Lemma align_a3m_aliased :
  align_a3m block_aliased aliases_h2 (∅, []) "A" =
  Ok ({["H1_A" := hit_a_on_a]}, [("H1", [Some "A"]); ("H2", [Some "C"])]).
Proof. vm_compute. reflexivity. Qed.

(** C8 as stated fails: the row H1_A has the alias H2_C, and the entry of
    H2 receives the label C of the alias, not the label A of the hit. *)
Lemma alias_is_credited_its_own_label :
  align_a3m block_aliased aliases_h2 (∅, []) "A" =
  Ok ({["H1_A" := hit_a_on_a]}, [("H1", [Some "A"]); ("H2", [Some "C"])]) /\
  Codec.decompose_pid "H1_A/2-4" = ("H1", Some "A", Some "2-4") /\
  aliases_h2 !! "H1_A" = Some ["H2_C"] /\
  acc_lookup "H2" [("H1", [Some "A"]); ("H2", [Some "C"])]
    = Some [Some "C"] /\
  acc_lookup "H2" [("H1", [Some "A"]); ("H2", [Some "C"])]
    <> Some [Some "A"].
Proof.
  split; [exact align_a3m_aliased|].
  repeat split; try (vm_compute; reflexivity). vm_compute. discriminate.
Qed.

Lemma align_a3m_registers_rows_witness :
  (forall X, Codec.set_iter X ≡ₚ elements X) /\
  align_a3m block_aliased aliases_h2 (∅, []) "A" =
  Ok ({["H1_A" := hit_a_on_a]}, [("H1", [Some "A"]); ("H2", [Some "C"])]) /\
  exists regs,
    Forall2 (registered Codec.decompose_pid Codec.seq_index_split "A")
      [("-BCD-", "H1_A/2-4")] regs.
Proof.
  split; [exact set_iter_elements|]. split; [exact align_a3m_aliased|].
  destruct (proj1 (AssemblerFacts.align_a3m_registers_rows
                     Codec.decompose_pid Codec.seq_index_split Codec.set_iter
                     block_aliased aliases_h2 (∅, []) "A" _
                     set_iter_elements align_a3m_aliased))
    as (regs & Hall & _).
  exists regs. exact Hall.
Defined.

Lemma covered_both_chains (data : gmap string align_record) sh c :
  c ∈ ["A"; "B"] ->
  is_Some (db_mapping_idx sh !! "H1_A") ->
  is_Some (db_mapping_idx sh !! "H1_B") ->
  is_Some (data !! "H1_A") -> is_Some (data !! "H1_B") ->
  exists r, record_of sh data "H1" (Some c) = Ok r.
Proof.
  intros Hin [ka Hka] [kb Hkb] [ra Hra] [rb Hrb].
  apply elem_of_cons in Hin as [->|Hin];
    [|apply list_elem_of_singleton in Hin as ->];
    unfold record_of.
  - change (compose_key "H1" (Some "A")) with "H1_A".
    rewrite Hka. simpl. rewrite Hra. eauto.
  - change (compose_key "H1" (Some "B")) with "H1_B".
    rewrite Hkb. simpl. rewrite Hrb. eauto.
Qed.

(** C10: every credit appends one label to the entry, present or not, so
    an entry can hold a label twice, and the completeness filter compares
    the length of that list.  There is a complex whose hit has a record
    for each required chain and is excluded because a second row credits a
    chain again; one where it is excluded because crediting an alias adds
    labels; and one where a repeated label makes the count match although
    a required chain has no record, and the hit is retained. *)
Theorem coverage_counts_labels_not_chains :
  (forall pid chain acc,
     acc_lookup pid (acc_append pid chain acc) =
     Some (default [] (acc_lookup pid acc) ++ [chain])) /\
  (exists sh uri item a3m_list data cov out,
     read_a3m_dict sh uri ∅ item.1 item.2 [] (∅, [])
       = Ok (a3m_list, (data, cov)) /\
     acc_lookup "H1" cov = Some [Some "A"; Some "A"; Some "B"] /\
     is_Some (db_attr_idx sh !! "H1") /\
     db_chain_idx sh !! "H1" = Some ["A"; "B"] /\
     (forall c, c ∈ ["A"; "B"] ->
        exists r, record_of sh data "H1" (Some c) = Ok r) /\
     acc_lookup "H1" (filter_aligned sh cov) = None /\
     align_complex sh uri ∅ item = Ok (item, out, cov) /\
     length out = 2) /\
  (exists sh uri item a3m_list data cov labels out,
     read_a3m_dict sh uri ∅ item.1 item.2 [] (∅, [])
       = Ok (a3m_list, (data, cov)) /\
     db_mapping_dict sh !! "H1_A" = Some ["H1_A"; "H1_B"] /\
     acc_lookup "H1" cov = Some labels /\ length labels = 4 /\
     is_Some (db_attr_idx sh !! "H1") /\
     db_chain_idx sh !! "H1" = Some ["A"; "B"] /\
     (forall c, c ∈ ["A"; "B"] ->
        exists r, record_of sh data "H1" (Some c) = Ok r) /\
     acc_lookup "H1" (filter_aligned sh cov) = None /\
     align_complex sh uri ∅ item = Ok (item, out, cov) /\
     length out = 2) /\
  (exists sh uri item a3m_list data cov out,
     read_a3m_dict sh uri ∅ item.1 item.2 [] (∅, [])
       = Ok (a3m_list, (data, cov)) /\
     acc_lookup "H1" cov = Some [Some "A"; Some "A"] /\
     db_chain_idx sh !! "H1" = Some ["A"; "B"] /\
     data !! "H1_B" = None /\
     record_of sh data "H1" (Some "B") = Raise AssertionError /\
     acc_lookup "H1" (filter_aligned sh cov) = Some [Some "A"; Some "A"] /\
     align_complex sh uri ∅ item = Ok (item, out, cov) /\
     out !! 2 = Some ">H1 chains:A,A {}").
Proof.
  split; [exact AssemblerFacts.acc_lookup_append_eq|]. split; [|split].
  - exists db, blocks_repeated, target,
      [block_a; (["WXYZ"; "WXY-"; "WX--"], ["T1_B"; "H1_A/1-3"; "H1_B/1-2"])],
      records_repeated, [("H1", [Some "A"; Some "A"; Some "B"])],
      [">T1 domains:1-5,106-109"; "ABCDEWXYZ"].
    split; [vm_compute; reflexivity|]. split; [reflexivity|].
    split; [vm_compute; eauto|]. split; [reflexivity|].
    split; [|repeat split; vm_compute; reflexivity].
    intros c Hc. apply covered_both_chains; [exact Hc|..]; vm_compute; eauto.
  - exists db_alias, blocks_same_hit, target, [block_a; block_b_h1a],
      records_same_hit,
      [("H1", [Some "A"; Some "B"; Some "A"; Some "B"])],
      [Some "A"; Some "B"; Some "A"; Some "B"],
      [">T1 domains:1-5,106-109"; "ABCDEWXYZ"].
    split; [vm_compute; reflexivity|]. split; [reflexivity|].
    split; [reflexivity|]. split; [reflexivity|].
    split; [vm_compute; eauto|]. split; [reflexivity|].
    split; [|repeat split; vm_compute; reflexivity].
    intros c Hc.
    apply elem_of_cons in Hc as [->|Hc];
      [|apply list_elem_of_singleton in Hc as ->];
      eexists; vm_compute; reflexivity.
  - exists db, blocks_same_hit, target, [block_a; block_b_h1a],
      records_same_hit, [("H1", [Some "A"; Some "A"])],
      [">T1 domains:1-5,106-109"; "ABCDEWXYZ";
       ">H1 chains:A,A {}"; "*****WXY*"].
    repeat split; vm_compute; reflexivity.
Qed.

End ExampleFacts.


(** * The language of the alignment validity automaton *)

Module AutomatonLanguage.
Import Automaton.

Lemma drop_get : forall k s,
  k < String.length s ->
  exists c, String.get k s = Some c /\
            string_drop k s = String c (string_drop (S k) s).
Proof.
induction k as [|k IH]; intros [|a s] H; simpl in H; try lia.
- exists a. split; reflexivity.
- destruct (IH s) as (c & Hc & Hd); [lia|].
  exists c. split; [exact Hc|]. exact Hd.
Qed.

Lemma scan_suffixes_nil_r st target : scan_suffixes st target EmptyString = true.
Proof. destruct target; reflexivity. Qed.

(** The loop computes the scan of the two suffixes. *)
Lemma loop_scan target seq : forall fuel s,
  lockstep target seq s -> String.length seq - pos_j s < fuel ->
  exists s', loop fuel target seq s =
    Some (scan_suffixes (state s) (string_drop (pos_i s) target)
            (string_drop (pos_j s) seq), s').
Proof.
induction fuel as [|fuel IH]; intros [i j st] (Hij & Hst & Hmin) Hfuel;
  simpl in *; [lia|]. subst j.
unfold guard. simpl.
destruct (i <? String.length target) eqn:Ht; simpl.
2: { apply Nat.ltb_ge in Ht. rewrite (MaskFacts.drop_all _ _ Ht).
     eexists. reflexivity. }
destruct (i <? String.length seq) eqn:Hs; simpl.
2: { apply Nat.ltb_ge in Hs. rewrite (MaskFacts.drop_all _ _ Hs).
     rewrite scan_suffixes_nil_r. eexists. reflexivity. }
apply Nat.ltb_lt in Ht, Hs.
destruct (drop_get _ _ Ht) as (t & Hgt & Hdt).
destruct (drop_get _ _ Hs) as (c & Hgc & Hdc).
rewrite Hdt, Hdc. unfold body. simpl. rewrite Hgt, Hgc.
cbn [scan_suffixes].
assert (Hnext : forall st', st' <= 2 ->
  exists s', loop fuel target seq (advance (Scan i i st) st') =
    Some (scan_suffixes st' (string_drop (S i) target)
            (string_drop (S i) seq), s')).
{ intros st' Hst'. apply (IH (Scan (S i) (S i) st')).
  - unfold lockstep. simpl. lia.
  - simpl. lia. }
destruct (islower c); [eexists; reflexivity|].
destruct st as [|[|[|st]]]; simpl; try lia.
- destruct (Ascii.eqb c gap); [apply Hnext; lia|].
  destruct (Ascii.eqb t c); [apply Hnext; lia|eexists; reflexivity].
- destruct (Ascii.eqb c gap); [apply Hnext; lia|].
  destruct (Ascii.eqb t c); [apply Hnext; lia|eexists; reflexivity].
- destruct (Ascii.eqb c gap); simpl; [apply Hnext; lia|eexists; reflexivity].
Qed.

Lemma is_aligned_scan target seq :
  _is_aligned target seq = scan_suffixes 0 target seq.
Proof.
destruct (loop_scan target seq (S (String.length seq)) init) as [s' Hs'].
- apply AutomatonFacts.lockstep_init.
- simpl. lia.
- unfold _is_aligned, run. rewrite Hs'. reflexivity.
Qed.









Lemma scan_ignores_tail : forall target st seq extra,
  String.length target <= String.length seq ->
  scan_suffixes st target (seq +:+ extra) = scan_suffixes st target seq.
Proof.
induction target as [|t target IH]; intros st seq extra Hlen; [reflexivity|].
destruct seq as [|c seq]; simpl in Hlen; [lia|].
rewrite MaskFacts.app_cons. cbn [scan_suffixes].
assert (H : forall st', scan_suffixes st' target (seq +:+ extra) =
                        scan_suffixes st' target seq)
  by (intros st'; apply IH; lia).
rewrite !H. reflexivity.
Qed.

(** X2: a candidate is read up to the length of the reference only:
    whatever follows a candidate at least as long as the reference does
    not change the verdict. *)
Theorem is_aligned_ignores_candidate_tail target seq extra :
  String.length target <= String.length seq ->
  _is_aligned target (seq +:+ extra) = _is_aligned target seq.
Proof.
intros Hlen. rewrite !is_aligned_scan. now apply scan_ignores_tail.
Qed.

Lemma is_aligned_ignores_candidate_tail_witness :
  String.length "ABCDE" <= String.length "-BCD-" /\
  _is_aligned "ABCDE" ("-BCD-" +:+ "xyz") = _is_aligned "ABCDE" "-BCD-".
Proof.
split; [simpl; lia|].
apply (is_aligned_ignores_candidate_tail "ABCDE" "-BCD-" "xyz"). simpl; lia.
Defined.

End AutomatonLanguage.

(** * The row filter of [mhc_filter_main] *)

Module MhcFilterFacts.
Import Automaton MhcFilter.






End MhcFilterFacts.

(** * The index readers *)

Module ReaderFacts.
Import Index Readers.

Lemma read_mapping_lines_app l2 : forall l1 m,
  read_mapping_lines (l1 ++ l2) m =
  read_mapping_lines l1 m ≫= read_mapping_lines l2.
Proof.
induction l1 as [|l l1 IH]; intros m; [reflexivity|].
destruct l as [|k [|v [|x l]]]; try reflexivity. simpl. apply IH.
Qed.

Lemma read_chain_lines_app l2 : forall l1 c,
  read_chain_lines (l1 ++ l2) c = read_chain_lines l1 c ≫= read_chain_lines l2.
Proof.
induction l1 as [|l l1 IH]; intros c; [reflexivity|].
destruct l as [|k v]; [reflexivity|]. simpl. apply IH.
Qed.

(** X4: reading an aliasing index returns exactly when every line has two
    fields, and raises [ValueError] otherwise; an absent file leaves the
    map as it is. *)
Theorem read_mapping_idx_needs_two_fields lines mapping_dict :
  ((exists m, read_mapping_idx (Some lines) mapping_dict = Ok m) <->
   Forall (fun l => length l = 2) lines) /\
  (read_mapping_idx (Some lines) mapping_dict = Raise ValueError <->
   ~ Forall (fun l => length l = 2) lines) /\
  read_mapping_idx None mapping_dict = Ok mapping_dict.
Proof.
assert (H : forall m,
  (Forall (fun l => length l = 2) lines /\
   exists m', read_mapping_lines lines m = Ok m') \/
  (~ Forall (fun l => length l = 2) lines /\
   read_mapping_lines lines m = Raise ValueError)).
{ induction lines as [|l lines IH]; intros m.
  - left. split; [constructor|]. exists m. reflexivity.
  - destruct l as [|k [|v [|x l]]];
      try (right; split; [intros Hall; inversion Hall; discriminate
                         |reflexivity]).
    simpl. destruct (IH (<[v := k]> m)) as [[Hall Hok]|[Hall Herr]].
    + left. split; [constructor; [reflexivity|exact Hall]|exact Hok].
    + right. split; [|exact Herr].
      intros Hall'. inversion Hall'. contradiction. }
simpl. destruct (H mapping_dict) as [[Hall [m Hok]]|[Hall Herr]].
- split; [|split; [|reflexivity]].
  + split; [intros _; exact Hall|intros _; eauto].
  + rewrite Hok. split; [discriminate|intros Hn; contradiction].
- split; [|split; [|reflexivity]].
  + rewrite Herr. split; [intros [m Hm]; discriminate|intros Hn; contradiction].
  + split; [intros _; exact Hall|intros _; exact Herr].
Qed.

Lemma read_chain_lines_lookup k : forall lines c0 c,
  read_chain_lines lines c0 = Ok c ->
  c !! k = match chains_of k lines with
           | Some v => Some v
           | None => c0 !! k
           end.
Proof.
induction lines as [|l lines IH]; intros c0 c H; simpl in H.
- injection H as <-. reflexivity.
- destruct l as [|k' v]; [discriminate|].
  rewrite (IH _ _ H). simpl.
  destruct (chains_of k lines); [reflexivity|].
  destruct (decide (k' = k)) as [->|Hne].
  + apply lookup_insert_eq.
  + now apply lookup_insert_ne.
Qed.

Lemma read_chain_lines_total : forall lines c0,
  Forall (fun l => l <> []) lines ->
  exists c, read_chain_lines lines c0 = Ok c.
Proof.
induction lines as [|l lines IH]; intros c0 Hall.
- exists c0. reflexivity.
- inversion Hall as [|? ? Hl Hall']; subst.
  destruct l as [|k v]; [contradiction|]. simpl. apply IH. exact Hall'.
Qed.

Lemma chains_of_key_only k : forall lines,
  chains_of k (lines ++ [[k]]) = Some [].
Proof.
induction lines as [|l lines IH]; simpl.
- now rewrite decide_True.
- now rewrite IH.
Qed.

(** X6: on the non-blank lines of a membership index the reader never
    raises, and afterwards a base id has the chains of the last line that
    starts with it (none for a line that holds the base id alone), or, when
    no line starts with it, the chains it had before. *)
Theorem read_chain_idx_last_line_wins lines chain_dict :
  Forall (fun l => l <> []) lines ->
  exists c,
    read_chain_idx (Some lines) chain_dict = Ok c /\
    (forall k, c !! k = match chains_of k lines with
                        | Some v => Some v
                        | None => chain_dict !! k
                        end) /\
    (forall k, chains_of k (lines ++ [[k]]) = Some []).
Proof.
intros Hall.
destruct (read_chain_lines_total lines chain_dict Hall) as [c Hc].
exists c. split; [exact Hc|]. split.
- intros k. now apply read_chain_lines_lookup.
- intros k. apply chains_of_key_only.
Qed.

Lemma read_chain_idx_last_line_wins_witness :
  Forall (fun l : line => l <> []) [["H1"; "A"]; ["H2"]; ["H1"; "A"; "B"]] /\
  exists c,
    read_chain_idx (Some [["H1"; "A"]; ["H2"]; ["H1"; "A"; "B"]]) ∅ = Ok c /\
    c !! "H1" = Some ["A"; "B"] /\ c !! "H2" = Some [].
Proof.
assert (H : Forall (fun l : line => l <> [])
              [["H1"; "A"]; ["H2"]; ["H1"; "A"; "B"]])
  by (repeat constructor; discriminate).
split; [exact H|].
destruct (read_chain_idx_last_line_wins _ ∅ H) as (c & Hc & Hk & _).
exists c. split; [exact Hc|]. split; rewrite Hk; reflexivity.
Defined.

Section Json.

Context {attr : Type}.
Variable json_loads : string -> option attr.

Lemma read_attrs_lines_app l2 : forall l1 a,
  read_attrs_lines json_loads (l1 ++ l2) a =
  read_attrs_lines json_loads l1 a ≫= read_attrs_lines json_loads l2.
Proof.
induction l1 as [|l l1 IH]; intros a; [reflexivity|].
destruct l as [|k v]; [reflexivity|]. simpl. apply IH.
Qed.

Lemma read_attrs_lines_lookup k : forall lines a0 a,
  read_attrs_lines json_loads lines a0 = Ok a ->
  a !! k = match attr_of json_loads k lines with
           | Some v => Some v
           | None => a0 !! k
           end.
Proof.
induction lines as [|l lines IH]; intros a0 a H; simpl in H.
- injection H as <-. reflexivity.
- destruct l as [|k' v]; [discriminate|].
  rewrite (IH _ _ H). simpl.
  destruct (attr_of json_loads k lines); [reflexivity|].
  destruct (decide (k' = k)) as [->|Hne].
  + destruct (json_loads (join " " v)); [apply lookup_insert_eq|reflexivity].
  + destruct (json_loads (join " " v)); [now apply lookup_insert_ne|reflexivity].
Qed.

Lemma read_attrs_lines_total : forall lines a0,
  Forall (fun l => l <> []) lines ->
  exists a, read_attrs_lines json_loads lines a0 = Ok a.
Proof.
induction lines as [|l lines IH]; intros a0 Hall.
- exists a0. reflexivity.
- inversion Hall as [|? ? Hl Hall']; subst.
  destruct l as [|k v]; [contradiction|]. simpl. apply IH. exact Hall'.
Qed.

(** X7: on the non-blank lines of an attribute index the reader never
    raises, whatever [json.loads] does: a base id ends with the value of
    the last line that starts with it and whose text loads, and a line
    whose text does not load changes nothing, so it neither adds the base
    id nor erases the value of an earlier line. *)
Theorem read_attrs_idx_skips_malformed lines attr_dict :
  Forall (fun l => l <> []) lines ->
  exists a,
    read_attrs_idx json_loads (Some lines) attr_dict = Ok a /\
    (forall k, a !! k = match attr_of json_loads k lines with
                        | Some v => Some v
                        | None => attr_dict !! k
                        end) /\
    (forall k v, json_loads (join " " v) = None ->
       read_attrs_idx json_loads (Some (lines ++ [k :: v])) attr_dict = Ok a).
Proof.
intros Hall.
destruct (read_attrs_lines_total lines attr_dict Hall) as [a Ha].
exists a. split; [exact Ha|]. split.
- intros k. now apply read_attrs_lines_lookup.
- intros k v Hv. simpl. rewrite read_attrs_lines_app, Ha. simpl.
  now rewrite Hv.
Qed.

(** X5: loading several database locations gives the maps that reading
    the lines of their files one after another, as one file each, gives;
    so on a key collision the later location wins, and a location without
    a file adds nothing. *)
Theorem load_indices_reads_in_order dbs m c a :
  load_indices json_loads dbs (∅, ∅, ∅) = Ok (m, c, a) ->
  read_mapping_lines (all_lines mapping_file dbs) ∅ = Ok m /\
  read_chain_lines (all_lines chain_file dbs) ∅ = Ok c /\
  read_attrs_lines json_loads (all_lines attr_file dbs) ∅ = Ok a /\
  (forall k, m !! k = alias_of k (all_lines mapping_file dbs)) /\
  (forall k, c !! k = chains_of k (all_lines chain_file dbs)) /\
  (forall k, a !! k = attr_of json_loads k (all_lines attr_file dbs)).
Proof.
assert (Hgen : forall dbs m0 c0 a0 m c a,
  load_indices json_loads dbs (m0, c0, a0) = Ok (m, c, a) ->
  read_mapping_lines (all_lines mapping_file dbs) m0 = Ok m /\
  read_chain_lines (all_lines chain_file dbs) c0 = Ok c /\
  read_attrs_lines json_loads (all_lines attr_file dbs) a0 = Ok a).
{ clear. induction dbs as [|db dbs IH]; intros m0 c0 a0 m c a H; simpl in H.
  - injection H as <- <- <-. auto.
  - apply AssemblerFacts.bind_ok in H as (m1 & Hm & H).
    apply AssemblerFacts.bind_ok in H as (c1 & Hc & H).
    apply AssemblerFacts.bind_ok in H as (a1 & Ha & H).
    apply IH in H as (Hm' & Hc' & Ha').
    unfold all_lines. simpl.
    rewrite read_mapping_lines_app, read_chain_lines_app,
      read_attrs_lines_app.
    fold (all_lines mapping_file dbs) (all_lines chain_file dbs)
      (all_lines attr_file dbs).
    destruct (mapping_file db), (chain_file db), (attr_file db);
      simpl in Hm, Hc, Ha |- *;
      repeat match goal with
             | H : Ok _ = Ok _ |- _ => injection H as <-
             | H : _ = Ok _ |- _ => rewrite H
             end; simpl; auto. }
intros H. apply Hgen in H as (Hm & Hc & Ha).
split; [exact Hm|]. split; [exact Hc|]. split; [exact Ha|].
split; [|split]; intros k.
- rewrite (IndexFacts.read_mapping_lines_lookup k _ _ _ Hm).
  rewrite lookup_empty. now destruct (alias_of k _).
- rewrite (read_chain_lines_lookup k _ _ _ Hc).
  rewrite lookup_empty. now destruct (chains_of k _).
- rewrite (read_attrs_lines_lookup k _ _ _ Ha).
  rewrite lookup_empty. now destruct (attr_of json_loads k _).
Qed.

End Json.

(** A stand-in for [json.loads] in the concrete runs: it refuses the empty
    text and returns any other text as it is. *)
Lemma read_attrs_idx_skips_malformed_witness :
  Forall (fun l : line => l <> []) [["H1"; "{}"]; ["H1"]] /\
  exists a,
    read_attrs_idx (fun s => if nonempty s then Some s else None)
      (Some [["H1"; "{}"]; ["H1"]]) ∅ = Ok a /\
    a !! "H1" = Some "{}".
Proof.
assert (H : Forall (fun l : line => l <> []) [["H1"; "{}"]; ["H1"]])
  by (repeat constructor; discriminate).
split; [exact H|].
destruct (read_attrs_idx_skips_malformed
            (fun s => if nonempty s then Some s else None) _ ∅ H)
  as (a & Ha & Hk & _).
exists a. split; [exact Ha|]. rewrite Hk. reflexivity.
Defined.

Lemma load_indices_reads_in_order_witness :
  load_indices (fun s => if nonempty s then Some s else None)
    [DbFiles (Some [["H1_A"; "H1_B"]]) (Some [["H1"; "A"; "B"]]) None;
     DbFiles None (Some [["H1"; "A"]]) (Some [["H1"; "{}"]])] (∅, ∅, ∅)
  = Ok ({["H1_B" := "H1_A"]}, {["H1" := ["A"]]}, {["H1" := "{}"]}) /\
  ({["H1" := ["A"]]} : gmap string (list string)) !! "H1" =
  chains_of "H1" [["H1"; "A"; "B"]; ["H1"; "A"]].
Proof.
assert (H : load_indices (fun s => if nonempty s then Some s else None)
    [DbFiles (Some [["H1_A"; "H1_B"]]) (Some [["H1"; "A"; "B"]]) None;
     DbFiles None (Some [["H1"; "A"]]) (Some [["H1"; "{}"]])] (∅, ∅, ∅)
  = Ok ({["H1_B" := "H1_A"]}, {["H1" := ["A"]]}, {["H1" := "{}"]}))
  by (vm_compute; reflexivity).
split; [exact H|].
destruct (load_indices_reads_in_order _ _ _ _ _ H)
  as (_ & _ & _ & _ & Hc & _).
exact (Hc "H1").
Defined.

End ReaderFacts.

(** * The alias lists of [align_complex_main] *)

Module DriverFacts.
Import Index Assembler Readers.

Lemma foldl_add_alias_lookup c : forall items d,
  default [] (foldl add_alias d items !! c) =
  default [] (d !! c) ++ (filter (fun kv => kv.2 = c) items).*1.
Proof.
induction items as [|[k v] items IH]; intros d; simpl.
- now rewrite app_nil_r.
- rewrite IH. unfold add_alias. simpl.
  rewrite filter_cons. simpl. destruct (decide (v = c)) as [->|Hne].
  + rewrite lookup_insert_eq. simpl. now rewrite <- app_assoc.
  + now rewrite lookup_insert_ne.
Qed.

Lemma foldl_add_alias_none c : forall items d,
  foldl add_alias d items !! c = None <->
  d !! c = None /\ forall a, (a, c) ∉ items.
Proof.
induction items as [|[k v] items IH]; intros d; simpl.
- split; [intros H; split; [exact H|intros a Ha; inversion Ha]|tauto].
- rewrite IH. unfold add_alias. simpl. destruct (decide (v = c)) as [->|Hne].
  + rewrite lookup_insert_eq. split; [intros [H _]; discriminate|].
    intros [_ H]. exfalso. apply (H k). now left.
  + rewrite lookup_insert_ne by exact Hne. split.
    * intros [Hd H]. split; [exact Hd|]. intros a Ha.
      apply elem_of_cons in Ha as [[= -> ->]|Ha]; [congruence|].
      now apply (H a).
    * intros [Hd H]. split; [exact Hd|]. intros a Ha. apply (H a). now right.
Qed.

(** X8: the alias lists built from the items of the aliasing index invert
    it: the list of a canonical id holds, once each, exactly the
    identifiers the index maps to it, and a canonical id nothing maps to
    has no list; so the identifiers [align_a3m] credits for a row are its
    key and the identifiers whose canonical id is that key. *)
Theorem build_mapping_dict_inverts (db_mapping_idx : gmap string string)
    items c :
  items ≡ₚ map_to_list db_mapping_idx ->
  NoDup (default [] (build_mapping_dict items !! c)) /\
  (forall a, a ∈ default [] (build_mapping_dict items !! c) <->
             db_mapping_idx !! a = Some c) /\
  (build_mapping_dict items !! c = None <->
   forall a, db_mapping_idx !! a <> Some c) /\
  (forall id, id ∈ pdb_id_list (build_mapping_dict items) c <->
              id = c \/ db_mapping_idx !! id = Some c).
Proof.
intros Hperm.
assert (Hin : forall a v, (a, v) ∈ items <-> db_mapping_idx !! a = Some v).
{ intros a v. rewrite Hperm. apply elem_of_map_to_list. }
assert (Hnd : NoDup items.*1).
{ rewrite Hperm. apply NoDup_fst_map_to_list. }
assert (Hl : default [] (build_mapping_dict items !! c) =
             (filter (fun kv => kv.2 = c) items).*1).
{ unfold build_mapping_dict. rewrite foldl_add_alias_lookup.
  now rewrite lookup_empty. }
assert (Hmem : forall a, a ∈ default [] (build_mapping_dict items !! c) <->
                         db_mapping_idx !! a = Some c).
{ intros a. rewrite Hl, list_elem_of_fmap. split.
  - intros ([a' v] & -> & Hf). apply list_elem_of_filter in Hf as [Hv Hf].
    simpl in Hv. subst v. now apply Hin.
  - intros Ha. exists (a, c). split; [reflexivity|].
    apply list_elem_of_filter. split; [reflexivity|]. now apply Hin. }
split; [|split; [exact Hmem|split]].
- rewrite Hl. eapply sublist_NoDup; [exact Hnd|].
  apply fmap_sublist, sublist_filter.
- unfold build_mapping_dict. rewrite foldl_add_alias_none. split.
  + intros [_ H] a Ha. apply (H a). now apply Hin.
  + intros H. split; [apply lookup_empty|]. intros a Ha.
    apply (H a). now apply Hin.
- intros id. unfold pdb_id_list.
  rewrite elem_of_union, elem_of_singleton, elem_of_list_to_set, Hmem.
  reflexivity.
Qed.

Lemma build_mapping_dict_inverts_witness :
  map_to_list ({["H1_A" := "H1_A"; "H1_B" := "H1_A"]} : gmap string string)
    ≡ₚ map_to_list ({["H1_A" := "H1_A"; "H1_B" := "H1_A"]} : gmap string string)
  /\ ("H1_B" ∈ default []
        (build_mapping_dict
           (map_to_list
              ({["H1_A" := "H1_A"; "H1_B" := "H1_A"]} : gmap string string))
         !! "H1_A") <->
      ({["H1_A" := "H1_A"; "H1_B" := "H1_A"]} : gmap string string) !! "H1_B"
      = Some "H1_A").
Proof.
split; [reflexivity|].
apply (build_mapping_dict_inverts
         {["H1_A" := "H1_A"; "H1_B" := "H1_A"]} _ "H1_A"). reflexivity.
Defined.

End DriverFacts.

(** * More on the hit indexer and the assembler *)

Module AssemblerMore.
Import Index Assembler.

Lemma foldl_insert_lookup (key : string) :
  forall (regs : list (string * align_record)) (m : gmap string align_record),
  (foldl (fun m reg => <[reg.1 := reg.2]> m) m regs !! key = m !! key /\
   key ∉ regs.*1) \/
  (exists r, (key, r) ∈ regs /\
     foldl (fun m reg => <[reg.1 := reg.2]> m) m regs !! key = Some r).
Proof.
induction regs as [|[k r] regs IH]; intros m; simpl.
- left. split; [reflexivity|apply not_elem_of_nil].
- destruct (IH (<[k := r]> m)) as [[Heq Hnot]|(r' & Hin & Heq)].
  + destruct (decide (k = key)) as [->|Hne].
    * right. exists r. split; [now left|].
      now rewrite Heq, lookup_insert_eq.
    * left. split; [now rewrite Heq, lookup_insert_ne|].
      intros H. apply elem_of_cons in H as [->|H]; [congruence|contradiction].
  + right. exists r'. split; [now right|exact Heq].
Qed.

Lemma Forall2_elem_of_r {A B : Type} (R : A -> B -> Prop) l k y :
  Forall2 R l k -> y ∈ k -> exists x, x ∈ l /\ R x y.
Proof.
induction 1 as [|a b l k Hab H IH]; intros Hy; [inversion Hy|].
apply elem_of_cons in Hy as [->|Hy].
- exists a. split; [now left|exact Hab].
- destruct (IH Hy) as (x & Hx & HR). exists x. split; [now right|exact HR].
Qed.

Lemma Forall2_elem_of_l {A B : Type} (R : A -> B -> Prop) l k x :
  Forall2 R l k -> x ∈ l -> exists y, y ∈ k /\ R x y.
Proof.
induction 1 as [|a b l k Hab H IH]; intros Hx; [inversion Hx|].
apply elem_of_cons in Hx as [->|Hx].
- exists b. split; [now left|exact Hab].
- destruct (IH Hx) as (y & Hy & HR). exists y. split; [now right|exact HR].
Qed.

Lemma record_of_in_store sh data pid chain r :
  record_of sh data pid chain = Ok r -> exists key, data !! key = Some r.
Proof.
unfold record_of. intros H.
apply AssemblerFacts.bind_ok in H as (canonical & _ & H).
destruct (data !! compose_key pid chain) eqn:E.
- injection H as <-. eauto.
- apply AssemblerFacts.or_raise_ok in H. eauto.
Qed.

Lemma first_of_labels_ok : forall chain_list cs,
  first_of_labels chain_list = Ok cs ->
  Forall (fun c => exists s, c = Some s /\ nonempty s = true) chain_list.
Proof.
induction chain_list as [|c rest IH]; intros cs H; [constructor|].
cbn [first_of_labels] in H.
apply AssemblerFacts.bind_ok in H as (c1 & Hc & H).
apply AssemblerFacts.bind_ok in H as (cs1 & Hcs & _).
constructor; [|eapply IH; exact Hcs].
destruct c as [[|a s]|]; try discriminate. eauto.
Qed.

Lemma hit_header_starts sh pid chain_list d :
  hit_header sh pid chain_list = Ok d -> exists rest, d = String ">" rest.
Proof.
unfold hit_header. intros H.
apply AssemblerFacts.bind_ok in H as (cs & _ & [= <-]).
destruct (db_attr_idx sh !! pid); eexists; reflexivity.
Qed.

Lemma length_hit_lines hits : length (hit_lines hits) = 2 * length hits.
Proof.
induction hits as [|h hits IH]; [reflexivity|].
change (hit_lines (h :: hits)) with (h.1 :: h.2 :: hit_lines hits).
cbn [length]. rewrite IH. lia.
Qed.

Lemma hit_lines_lookup : forall hits k h,
  hits !! k = Some h ->
  hit_lines hits !! (2 * k) = Some h.1 /\
  hit_lines hits !! (2 * k + 1) = Some h.2.
Proof.
induction hits as [|h0 hits IH]; intros k h Hk; [discriminate|].
destruct k as [|k]; simpl in Hk.
- injection Hk as ->. split; reflexivity.
- replace (2 * S k) with (S (S (2 * k))) by lia.
  replace (S (S (2 * k)) + 1) with (S (S (2 * k + 1))) by lia.
  exact (IH k h Hk).
Qed.

Section Codec.

Variable decompose_pid : string -> string * label * option string.
Variable seq_index_split : string -> result (list (Z * Z)).
Variable seq_index_join : list (Z * Z) -> string.
Variable set_iter : gset string -> list string.

Local Abbreviation registered := (registered decompose_pid seq_index_split).
Local Abbreviation align_a3m := (align_a3m decompose_pid seq_index_split set_iter).
Local Abbreviation read_a3m_dict :=
  (read_a3m_dict decompose_pid seq_index_split set_iter).
Local Abbreviation align_complex :=
  (align_complex decompose_pid seq_index_split seq_index_join set_iter).

Lemma align_a3m_store block md st tc st' :
  align_a3m block md st tc = Ok st' ->
  (forall key r, st'.1 !! key = Some r ->
     st.1 !! key = Some r \/
     (rec_target_chain r = tc /\
      (rec_seq r, rec_desc r) ∈ zip (drop 1 block.1) (drop 1 block.2) /\
      exists row, row ∈ zip (drop 1 block.1) (drop 1 block.2) /\
                  registered tc row (key, r))) /\
  (forall row, row ∈ zip (drop 1 block.1) (drop 1 block.2) ->
     exists key r0 r, registered tc row (key, r0) /\
                      st'.1 !! key = Some r /\ rec_target_chain r = tc).
Proof.
intros H. unfold Assembler.align_a3m in H. destruct block as [seqs descs].
apply AssemblerFacts.align_rows_ok in H as (regs & Hall & Hstore & _).
simpl. assert (Hreg : forall key r, (key, r) ∈ regs ->
  rec_target_chain r = tc /\
  (rec_seq r, rec_desc r) ∈ zip (drop 1 seqs) (drop 1 descs) /\
  exists row, row ∈ zip (drop 1 seqs) (drop 1 descs) /\
              registered tc row (key, r)).
{ intros key r Hin.
  destruct (Forall2_elem_of_r _ _ _ _ Hall Hin) as ([seq desc] & Hrow & HR).
  pose proof HR as (id & pid & chain & dom & _ & _ & _ & _ & Hs & Hd & Ht).
  simpl in Hs, Hd, Ht. rewrite Hs, Hd. eauto. }
split.
- intros key r Hr. rewrite Hstore in Hr.
  destruct (foldl_insert_lookup key regs st.1) as [[Heq _]|(r' & Hin & Heq)].
  + left. now rewrite <- Heq.
  + right. rewrite Heq in Hr. injection Hr as <-. now apply Hreg.
- intros row Hrow.
  destruct (Forall2_elem_of_l _ _ _ _ Hall Hrow) as ([key r0] & Hin & HR).
  destruct (foldl_insert_lookup key regs st.1) as [[_ Hnot]|(r & Hin' & Heq)].
  + exfalso. apply Hnot. apply list_elem_of_fmap. now exists (key, r0).
  + exists key, r0, r. split; [exact HR|]. split; [now rewrite Hstore|].
    exact (proj1 (Hreg key r Hin')).
Qed.

(** X9: after [align_a3m] has indexed the block of a target chain, the key
    of every non-query row holds a record tagged with that chain, whatever
    it held before, and every other key holds what it held; a record in
    the store is either an old one or one a non-query row of the block has
    registered. *)
Theorem align_a3m_overwrites_keys block mapping_dict align_dict
    target_chain align_dict' :
  align_a3m block mapping_dict align_dict target_chain = Ok align_dict' ->
  (forall key r, align_dict'.1 !! key = Some r ->
     align_dict.1 !! key = Some r \/
     (rec_target_chain r = target_chain /\
      exists row, row ∈ zip (drop 1 block.1) (drop 1 block.2) /\
                  registered target_chain row (key, r))) /\
  (forall row, row ∈ zip (drop 1 block.1) (drop 1 block.2) ->
     exists key r0 r, registered target_chain row (key, r0) /\
                      align_dict'.1 !! key = Some r /\
                      rec_target_chain r = target_chain).
Proof.
intros H. destruct (align_a3m_store _ _ _ _ _ H) as [Ha Hb].
split; [|exact Hb].
intros key r Hr. destruct (Ha key r Hr) as [Hold|(Ht & _ & Hrow)]; auto.
Qed.

Lemma read_a3m_dict_store sh uri tm pid all : forall chains l st l' st',
  read_a3m_dict sh uri tm pid chains l st = Ok (l', st') ->
  (forall c, c ∈ chains -> c ∈ all) ->
  (forall key r, st.1 !! key = Some r -> from_block uri tm pid all r) ->
  forall key r, st'.1 !! key = Some r -> from_block uri tm pid all r.
Proof.
induction chains as [|chain chains IH]; intros l st l' st' H Hsub Hinv;
  cbn [Assembler.read_a3m_dict] in H.
- injection H as <- <-. exact Hinv.
- apply AssemblerFacts.bind_ok in H as (block & Hb & H).
  apply AssemblerFacts.bind_ok in H as (st1 & H1 & H).
  eapply IH; [exact H| |].
  + intros c Hc. apply Hsub. now right.
  + intros key r Hr.
    destruct (align_a3m_store _ _ _ _ _ H1) as [Ha _].
    destruct (Ha key r Hr) as [Hold|(Ht & Hrow & _)];
      [exact (Hinv key r Hold)|].
    split; [rewrite Ht; apply Hsub; now left|].
    exists block. rewrite Ht. auto.
Qed.

End Codec.
End AssemblerMore.

(** * More on the gap normalisation *)

Module MaskMore.

Lemma masked_from_refl s : masked_from s s.
Proof. induction s as [|c s IH]; simpl; auto. Qed.

Lemma masked_from_trans : forall s t u,
  masked_from s t -> masked_from t u -> masked_from s u.
Proof.
induction s as [|c s IH]; intros [|d t] [|e u]; simpl; try tauto.
intros [Hd Hst] [He Htu]. split; [|eapply IH; eauto].
destruct Hd as [->|[-> ->]]; [exact He|].
destruct He as [->|[He _]]; [auto|discriminate].
Qed.

Lemma masked_from_length : forall s t,
  masked_from s t -> String.length t = String.length s.
Proof.
induction s as [|c s IH]; intros [|d t]; simpl; try tauto.
intros [_ H]. now rewrite (IH t H).
Qed.

Lemma masked_from_run n t :
  masked_from (repeat_char gap n +:+ t) (repeat_char mask n +:+ t).
Proof.
induction n as [|n IH]; simpl.
- rewrite ?MaskFacts.app_nil. apply masked_from_refl.
- rewrite ?MaskFacts.app_cons. simpl. auto.
Qed.

Lemma masked_from_leading_run s :
  masked_from s (repeat_char mask (match_gaps s) +:+
                 string_drop (match_gaps s) s).
Proof.
destruct (MaskFacts.leading_split s) as [Hs _].
rewrite Hs at 1. apply masked_from_run.
Qed.

Lemma masked_from_sub_leading s : masked_from s (sub_leading s).
Proof. rewrite MaskFacts.sub_leading_eq. apply masked_from_leading_run. Qed.

Lemma masked_from_sub_trailing s : masked_from s (sub_trailing s).
Proof.
induction s as [|c s IH]; [exact I|].
cbn [sub_trailing]. unfold match_trailing.
destruct ((0 <? match_gaps (String c s)) &&
          at_end (string_drop (match_gaps (String c s)) (String c s))).
- apply masked_from_leading_run.
- simpl. auto.
Qed.

Lemma mask_row_length row :
  String.length (mask_row row) = String.length row.
Proof.
apply masked_from_length. unfold mask_row. eapply masked_from_trans.
- apply masked_from_sub_leading.
- apply masked_from_sub_trailing.
Qed.

(** X14: on every row, newline or not, the normalisation changes nothing
    but gap characters into mask characters, position by position; so the
    row keeps its length, and a row without a gap character is returned as
    it is. *)
Theorem mask_row_only_masks_gaps row :
  masked_from row (mask_row row) /\
  String.length (mask_row row) = String.length row /\
  (contains gap row = false -> mask_row row = row).
Proof.
assert (H : masked_from row (mask_row row)).
{ unfold mask_row. eapply masked_from_trans.
  - apply masked_from_sub_leading.
  - apply masked_from_sub_trailing. }
split; [exact H|]. split; [now apply masked_from_length|].
clear. intros Hg.
assert (Hgen : forall s t, contains gap s = false -> masked_from s t -> t = s).
{ induction s as [|c s IH]; intros [|d t]; simpl; try tauto.
  intros Hc [Hd Hst]. apply orb_false_iff in Hc as [Hc Hs].
  f_equal; [|now apply IH].
  destruct Hd as [->|[-> _]]; [reflexivity|].
  rewrite Ascii.eqb_refl in Hc. discriminate. }
apply Hgen; [exact Hg|].
unfold mask_row. eapply masked_from_trans.
- apply masked_from_sub_leading.
- apply masked_from_sub_trailing.
Qed.

End MaskMore.

(** * What [align_complex] returns *)

Module AssemblyFacts.
Import Index Assembler.

Lemma seq_at_0 block q d :
  _seq_at_i block 0 = Ok (q, d) -> block.1 !! 0 = Some q.
Proof.
unfold _seq_at_i. intros H.
apply AssemblerFacts.bind_ok in H as (q' & Hq & H).
apply AssemblerFacts.bind_ok in H as (d' & Hd & [= <- <-]).
now apply AssemblerFacts.or_raise_ok in Hq.
Qed.

Lemma hit_lines_lookup_inv : forall hits k line,
  hit_lines hits !! k = Some line ->
  exists h, hits !! (k / 2) = Some h /\
            (k = 2 * (k / 2) /\ line = h.1 \/
             k = 2 * (k / 2) + 1 /\ line = h.2).
Proof.
intros hits k line Hk.
assert (Hlt : k < 2 * length hits).
{ rewrite <- AssemblerMore.length_hit_lines. eapply lookup_lt_Some. exact Hk. }
assert (Hq : k / 2 < length hits) by (apply Nat.Div0.div_lt_upper_bound; lia).
destruct (lookup_lt_is_Some_2 hits (k / 2) Hq) as [h Hh].
exists h. split; [exact Hh|].
destruct (AssemblerMore.hit_lines_lookup hits _ h Hh) as [H1 H2].
pose proof (Nat.div_mod_eq k 2) as Hdm.
assert (Hm : k mod 2 < 2) by (apply Nat.mod_upper_bound; lia).
destruct (k mod 2) as [|[|m]] eqn:Em; [left|right|lia].
- assert (Hk2 : k = 2 * (k / 2)) by lia. split; [exact Hk2|].
  rewrite Hk2 in Hk. rewrite H1 in Hk. now injection Hk as <-.
- assert (Hk2 : k = 2 * (k / 2) + 1) by lia. split; [exact Hk2|].
  rewrite Hk2 in Hk. rewrite H2 in Hk. now injection Hk as <-.
Qed.

Lemma length_concat_rows_eq : forall parts queries,
  Forall2 (fun s q => String.length s = String.length q) parts queries ->
  String.length (concat_rows parts) = String.length (concat_rows queries).
Proof.
induction 1 as [|s q parts queries Hsq H IH]; [reflexivity|].
cbn [concat_rows]. rewrite !MaskFacts.length_app. lia.
Qed.

Section Codec.

Variable decompose_pid : string -> string * label * option string.
Variable seq_index_split : string -> result (list (Z * Z)).
Variable seq_index_join : list (Z * Z) -> string.
Variable set_iter : gset string -> list string.

Local Abbreviation read_a3m_dict :=
  (read_a3m_dict decompose_pid seq_index_split set_iter).
Local Abbreviation align_complex :=
  (align_complex decompose_pid seq_index_split seq_index_join set_iter).

(** The stages of a call that returns. *)
Lemma align_complex_stages sh uri tm pid chains item out cov :
  align_complex sh uri tm (pid, chains) = Ok (item, out, cov) ->
  exists blocks data queries doms n hits,
    read_a3m_dict sh uri tm pid chains [] (∅, []) = Ok (blocks, (data, cov)) /\
    Forall2 (fun chain block =>
               read_a3m uri tm (compose_key pid (Some chain)) = Ok block)
      chains blocks /\
    Forall2 (fun block q => exists d, _seq_at_i block 0 = Ok (q, d))
      blocks queries /\
    add_target blocks 0 chains (EmptyString, [], 1%Z)
      = Ok (concat_rows queries, doms, n) /\
    Forall2 (fun kv h =>
               hit_header sh kv.1 kv.2 = Ok h.1 /\
               hit_row sh data blocks kv.1 kv.2 0 chains EmptyString = Ok h.2)
      (filter_aligned sh cov) hits /\
    out = (">" +:+ pid +:+ " domains:" +:+ seq_index_join doms)
          :: concat_rows queries :: hit_lines hits.
Proof.
intros H. unfold Assembler.align_complex in H.
apply AssemblerFacts.bind_ok in H as ([a3m_list [data a3m_dict]] & Hread & H).
apply AssemblerFacts.bind_ok in H as ([[tseq doms] n] & Ht & H).
apply AssemblerFacts.bind_ok in H as (lines & Hhits & [= <- <- <-]).
pose proof Hread as Hread'.
apply AssemblerFacts.read_a3m_dict_blocks in Hread' as (blocks & -> & Hblocks).
simpl in *.
pose proof Ht as Ht'.
apply AssemblerFacts.add_target_ok in Ht' as (queries & Hq & Hlen & Hs & Hd).
simpl in Hs, Hd. subst tseq.
apply Forall2_length in Hblocks as Hbl.
rewrite drop_0, take_ge in Hq by lia.
apply AssemblerFacts.add_hits_ok in Hhits as (hits & Hall & ->).
exists blocks, data, queries, doms, n, hits.
rewrite MaskFacts.app_nil in Ht. auto 10.
Qed.

(** X10: when the first loop of [align_complex] has read and indexed the
    blocks of all target chains, every record of the store is tagged with
    a chain of the target and is a non-query row of the block of that
    chain. *)
Theorem records_come_from_tagged_blocks
    sh target_uri target_mapping_idx target_pid target_chain_list
    a3m_list align_data_dict a3m_dict key r :
  read_a3m_dict sh target_uri target_mapping_idx target_pid
    target_chain_list [] (∅, []) = Ok (a3m_list, (align_data_dict, a3m_dict)) ->
  align_data_dict !! key = Some r ->
  rec_target_chain r ∈ target_chain_list /\
  exists block,
    read_a3m target_uri target_mapping_idx
      (compose_key target_pid (Some (rec_target_chain r))) = Ok block /\
    (rec_seq r, rec_desc r) ∈ zip (drop 1 block.1) (drop 1 block.2).
Proof.
intros Hread Hr.
apply (AssemblerMore.read_a3m_dict_store decompose_pid seq_index_split set_iter
         sh target_uri target_mapping_idx target_pid target_chain_list
         _ _ _ _ _ Hread (fun c Hc => Hc)) with (key := key); [|exact Hr].
intros k r' H. simpl in H. rewrite lookup_empty in H. discriminate.
Qed.

(** X11: when the block of one of the target chains cannot be opened,
    [align_complex] returns nothing for the complex. *)
Theorem missing_block_aborts
    sh target_uri target_mapping_idx target_pid target_chain_list chain :
  chain ∈ target_chain_list ->
  target_uri !! resolve target_mapping_idx
                  (compose_key target_pid (Some chain)) = None ->
  exists e, align_complex sh target_uri target_mapping_idx
              (target_pid, target_chain_list) = Raise e.
Proof.
intros Hin Hnone.
destruct (align_complex sh target_uri target_mapping_idx
            (target_pid, target_chain_list)) as [[[item out] cov]|e] eqn:E;
  [|eauto].
exfalso.
apply align_complex_stages in E
  as (blocks & data & queries & doms & n & hits & _ & Hblocks & _).
destruct (AssemblerMore.Forall2_elem_of_l _ _ _ _ Hblocks Hin)
  as (block & _ & Hb).
unfold read_a3m in Hb. rewrite Hnone in Hb. discriminate.
Qed.

(** X12: what [align_complex] returns is a list of header and sequence
    pairs: two lines for the target and two for each retained hit, every
    line at an even position starts with ['>'], and the header of the
    [k]-th retained hit stands at position [2 * (k + 1)]. *)
Theorem output_is_header_sequence_pairs
    sh target_uri target_mapping_idx target_pid target_chain_list
    item out cov :
  align_complex sh target_uri target_mapping_idx
    (target_pid, target_chain_list) = Ok (item, out, cov) ->
  length out = 2 * (1 + length (filter_aligned sh cov)) /\
  (forall k line, out !! (2 * k) = Some line ->
     exists rest, line = String ">" rest) /\
  (forall k pid chain_list,
     filter_aligned sh cov !! k = Some (pid, chain_list) ->
     exists hit_desc, hit_header sh pid chain_list = Ok hit_desc /\
                      out !! (2 * (k + 1)) = Some hit_desc).
Proof.
intros H. apply align_complex_stages in H
  as (blocks & data & queries & doms & n & hits & _ & _ & _ & _ & Hall & ->).
split; [|split].
- cbn [length]. rewrite AssemblerMore.length_hit_lines.
  apply Forall2_length in Hall. lia.
- intros [|k] line Hk.
  + simpl in Hk. injection Hk as <-. eexists. reflexivity.
  + replace (2 * S k) with (S (S (2 * k))) in Hk by lia. simpl in Hk.
    destruct (hit_lines_lookup_inv _ _ _ Hk) as (h & Hh & Hcase).
    destruct (Forall2_lookup_r _ _ _ _ _ Hall Hh) as ([pid cl] & _ & Hd & _).
    destruct Hcase as [[_ ->]|[Hodd _]]; [|lia].
    eapply AssemblerMore.hit_header_starts. exact Hd.
- intros k pid cl Hk.
  destruct (Forall2_lookup_l _ _ _ _ _ Hall Hk) as (h & Hh & Hd & _).
  exists h.1. split; [exact Hd|].
  replace (2 * (k + 1)) with (S (S (2 * k))) by lia. simpl.
  apply (AssemblerMore.hit_lines_lookup hits k h Hh).
Qed.

(** X13: when [align_complex] returns, every label of every retained hit
    is a non-empty string, and with at least one target chain the first
    label of each retained hit has a record in the store, under its own
    key or under its canonical id; a retained hit credited through a
    chainless identifier, or whose first label resolves to no record,
    makes the whole call raise. *)
Theorem retained_hits_have_named_chains
    sh target_uri target_mapping_idx target_pid target_chain_list
    item out cov :
  align_complex sh target_uri target_mapping_idx
    (target_pid, target_chain_list) = Ok (item, out, cov) ->
  exists a3m_list align_data_dict,
    read_a3m_dict sh target_uri target_mapping_idx target_pid
      target_chain_list [] (∅, []) = Ok (a3m_list, (align_data_dict, cov)) /\
    forall pid chain_list, (pid, chain_list) ∈ filter_aligned sh cov ->
      Forall (fun c => exists s, c = Some s /\ nonempty s = true) chain_list /\
      (target_chain_list <> [] ->
       forall chain rest, chain_list = chain :: rest ->
         exists r, record_of sh align_data_dict pid chain = Ok r).
Proof.
intros H. apply align_complex_stages in H
  as (blocks & data & queries & doms & n & hits & Hread & _ & _ & _ & Hall & _).
exists blocks, data. split; [exact Hread|].
intros pid cl Hin.
destruct (AssemblerMore.Forall2_elem_of_l _ _ _ _ Hall Hin)
  as (h & _ & Hd & Hrow). simpl in Hd, Hrow.
split.
- unfold hit_header in Hd.
  apply AssemblerFacts.bind_ok in Hd as (cs & Hcs & _).
  eapply AssemblerMore.first_of_labels_ok. exact Hcs.
- intros Hne chain rest ->.
  destruct target_chain_list as [|tc tcs]; [contradiction|].
  cbn [hit_row] in Hrow.
  apply AssemblerFacts.bind_ok in Hrow as (s & Hs & _).
  unfold hit_seq_at in Hs.
  apply AssemblerFacts.bind_ok in Hs as (block & _ & Hs).
  apply AssemblerFacts.bind_ok in Hs as ([q d] & _ & Hs).
  apply AssemblerFacts.bind_ok in Hs as (found & Hsel & _).
  cbn [select_row] in Hsel.
  apply AssemblerFacts.bind_ok in Hsel as (r & Hr & _). eauto.
Qed.

(** X15: when every non-query row of the block of each target chain is as
    long as the query of that block, every sequence line [align_complex]
    returns is as long as the target sequence: the columns of the hits
    stay aligned with the target across chains. *)
Theorem hit_rows_have_target_length
    sh target_uri target_mapping_idx target_pid target_chain_list
    item out cov :
  align_complex sh target_uri target_mapping_idx
    (target_pid, target_chain_list) = Ok (item, out, cov) ->
  (forall chain block q row,
     chain ∈ target_chain_list ->
     read_a3m target_uri target_mapping_idx
       (compose_key target_pid (Some chain)) = Ok block ->
     block.1 !! 0 = Some q ->
     row ∈ zip (drop 1 block.1) (drop 1 block.2) ->
     String.length row.1 = String.length q) ->
  forall k line target_seq,
    out !! 1 = Some target_seq -> out !! (2 * k + 1) = Some line ->
    String.length line = String.length target_seq.
Proof.
intros H Hrect k line tseq Ht Hk.
apply align_complex_stages in H
  as (blocks & data & queries & doms & n & hits
      & Hread & Hblocks & Hq & _ & Hall & ->).
simpl in Ht. injection Ht as <-.
destruct k as [|k]; [simpl in Hk; now injection Hk as <-|].
replace (2 * S k + 1) with (S (S (2 * k + 1))) in Hk by lia. simpl in Hk.
destruct (hit_lines_lookup_inv _ _ _ Hk) as (h & Hh & Hcase).
destruct Hcase as [[Heven _]|[_ ->]]; [lia|].
destruct (Forall2_lookup_r _ _ _ _ _ Hall Hh) as ([pid cl] & _ & _ & Hrow).
simpl in Hrow.
apply AssemblerFacts.hit_row_ok in Hrow as (parts & -> & Hlen & Hparts).
rewrite MaskFacts.app_nil. apply length_concat_rows_eq.
apply Forall2_length in Hblocks as Hbl. apply Forall2_length in Hq as Hql.
apply Forall2_same_length_lookup_2; [lia|].
intros i s q Hs Hqi.
assert (Hi : i < length target_chain_list).
{ apply lookup_lt_Some in Hs. lia. }
destruct (lookup_lt_is_Some_2 _ _ Hi) as [tc Htc].
destruct (Hparts i tc Htc) as (s' & Hs' & Hat).
rewrite Hs in Hs'. injection Hs' as <-. simpl in Hat.
destruct (Forall2_lookup_l _ _ _ _ _ Hblocks Htc) as (block & Hb & Hrd).
destruct (Forall2_lookup_l _ _ _ _ _ Hq Hb) as (q' & Hq' & d & Hsq).
rewrite Hqi in Hq'. injection Hq' as <-.
unfold hit_seq_at in Hat. rewrite Hb in Hat. simpl in Hat.
rewrite Hsq in Hat. simpl in Hat.
apply AssemblerFacts.bind_ok in Hat as (found & Hsel & [= <-]).
destruct found as [row|]; simpl.
- apply AssemblerFacts.select_row_some in Hsel
    as (chain & r & _ & Hr & Htag & ->).
  rewrite MaskMore.mask_row_length.
  apply AssemblerMore.record_of_in_store in Hr as [key Hkey].
  destruct (AssemblerMore.read_a3m_dict_store decompose_pid seq_index_split
              set_iter sh target_uri target_mapping_idx target_pid
              target_chain_list _ _ _ _ _ Hread (fun c Hc => Hc)
              ltac:(intros ? ? Hx; simpl in Hx; rewrite lookup_empty in Hx;
                    discriminate) key r Hkey)
    as (_ & block' & Hrd' & Hin).
  rewrite Htag, Hrd in Hrd'. injection Hrd' as <-.
  apply (Hrect tc block q _ (list_elem_of_lookup_2 _ _ _ Htc) Hrd
           (seq_at_0 _ _ _ Hsq) Hin).
- apply MaskFacts.length_repeat_char.
Qed.

End Codec.
End AssemblyFacts.

(** * The further properties on the concrete complexes *)

Module MoreExampleFacts.
Import Index Assembler Examples.

Lemma align_a3m_overwrites_keys_witness :
  align_a3m block_aliased aliases_h2 (∅, []) "A" =
  Ok ({["H1_A" := hit_a_on_a]}, [("H1", [Some "A"]); ("H2", [Some "C"])]) /\
  exists key r0 r,
    registered Codec.decompose_pid Codec.seq_index_split "A"
      ("-BCD-", "H1_A/2-4") (key, r0) /\
    ({["H1_A" := hit_a_on_a]} : gmap string align_record) !! key = Some r /\
    rec_target_chain r = "A".
Proof.
split; [exact ExampleFacts.align_a3m_aliased|].
destruct (AssemblerMore.align_a3m_overwrites_keys
            Codec.decompose_pid Codec.seq_index_split Codec.set_iter
            block_aliased aliases_h2 (∅, []) "A" _
            ExampleFacts.align_a3m_aliased) as [_ H].
apply (H ("-BCD-", "H1_A/2-4")). simpl. now left.
Defined.

Lemma records_come_from_tagged_blocks_witness :
  read_a3m_dict db blocks_paired ∅ "T1" ["A"; "B"] [] (∅, []) =
  Ok ([block_a; (["WXYZ"; "WX--"], ["T1_B"; "H1_B/1-2"])],
      (records_paired, [("H1", [Some "A"; Some "B"])])) /\
  records_paired !! "H1_A" = Some hit_a_on_a /\
  rec_target_chain hit_a_on_a ∈ ["A"; "B"].
Proof.
split; [exact ExampleFacts.read_paired|]. split; [reflexivity|].
exact (proj1 (AssemblyFacts.records_come_from_tagged_blocks
                Codec.decompose_pid Codec.seq_index_split Codec.set_iter
                db blocks_paired ∅ "T1" ["A"; "B"] _ _ _ "H1_A" hit_a_on_a
                ExampleFacts.read_paired eq_refl)).
Defined.

Lemma missing_block_aborts_witness :
  "B" ∈ ["A"; "B"] /\
  ({["T1_A" := block_a]} : gmap string a3m_data)
    !! resolve ∅ (compose_key "T1" (Some "B")) = None /\
  exists e, align_complex db {["T1_A" := block_a]} ∅ ("T1", ["A"; "B"])
            = Raise e.
Proof.
assert (Hin : "B" ∈ ["A"; "B"]) by (right; left).
split; [exact Hin|]. split; [reflexivity|].
exact (AssemblyFacts.missing_block_aborts
         Codec.decompose_pid Codec.seq_index_split Codec.seq_index_join
         Codec.set_iter db {["T1_A" := block_a]} ∅ "T1" ["A"; "B"] "B"
         Hin eq_refl).
Defined.

Lemma output_is_header_sequence_pairs_witness :
  align_complex db blocks_paired ∅ target =
  Ok (target,
      [">T1 domains:1-5,106-109"; "ABCDEWXYZ";
       ">H1 chains:A,B {}"; "*BCD*WX**"],
      [("H1", [Some "A"; Some "B"])]) /\
  length [">T1 domains:1-5,106-109"; "ABCDEWXYZ";
          ">H1 chains:A,B {}"; "*BCD*WX**"] =
  2 * (1 + length (filter_aligned db [("H1", [Some "A"; Some "B"])])).
Proof.
split; [exact ExampleFacts.align_complex_paired|].
exact (proj1 (AssemblyFacts.output_is_header_sequence_pairs
                Codec.decompose_pid Codec.seq_index_split Codec.seq_index_join
                Codec.set_iter db blocks_paired ∅ "T1" ["A"; "B"] _ _ _
                ExampleFacts.align_complex_paired)).
Defined.

Lemma retained_hits_have_named_chains_witness :
  align_complex db blocks_paired ∅ target =
  Ok (target,
      [">T1 domains:1-5,106-109"; "ABCDEWXYZ";
       ">H1 chains:A,B {}"; "*BCD*WX**"],
      [("H1", [Some "A"; Some "B"])]) /\
  exists a3m_list align_data_dict,
    read_a3m_dict db blocks_paired ∅ "T1" ["A"; "B"] [] (∅, []) =
    Ok (a3m_list, (align_data_dict, [("H1", [Some "A"; Some "B"])])).
Proof.
split; [exact ExampleFacts.align_complex_paired|].
destruct (AssemblyFacts.retained_hits_have_named_chains
            Codec.decompose_pid Codec.seq_index_split Codec.seq_index_join
            Codec.set_iter db blocks_paired ∅ "T1" ["A"; "B"] _ _ _
            ExampleFacts.align_complex_paired) as (l & d & H & _).
exists l, d. exact H.
Defined.

Lemma blocks_paired_rectangular chain block q (row : string * string) :
  chain ∈ ["A"; "B"] ->
  read_a3m blocks_paired ∅ (compose_key "T1" (Some chain)) = Ok block ->
  block.1 !! 0 = Some q ->
  row ∈ zip (drop 1 block.1) (drop 1 block.2) ->
  String.length row.1 = String.length q.
Proof.
intros Hin Hb Hq Hrow.
apply elem_of_cons in Hin as [->|Hin];
  [|apply list_elem_of_singleton in Hin as ->];
  vm_compute in Hb; injection Hb as <-; simpl in Hq; injection Hq as <-;
  simpl in Hrow; apply list_elem_of_singleton in Hrow as ->; reflexivity.
Qed.

Lemma hit_rows_have_target_length_witness :
  align_complex db blocks_paired ∅ target =
  Ok (target,
      [">T1 domains:1-5,106-109"; "ABCDEWXYZ";
       ">H1 chains:A,B {}"; "*BCD*WX**"],
      [("H1", [Some "A"; Some "B"])]) /\
  String.length "*BCD*WX**" = String.length "ABCDEWXYZ".
Proof.
split; [exact ExampleFacts.align_complex_paired|].
exact (AssemblyFacts.hit_rows_have_target_length
         Codec.decompose_pid Codec.seq_index_split Codec.seq_index_join
         Codec.set_iter db blocks_paired ∅ "T1" ["A"; "B"] _ _ _
         ExampleFacts.align_complex_paired blocks_paired_rectangular
         1 "*BCD*WX**" "ABCDEWXYZ" eq_refl eq_refl).
Defined.

End MoreExampleFacts.

(** * The sequence store of [csv_to_fasta_main] *)

Module CsvToFastaFacts.
Import CsvToFasta.

Lemma cell_writes_snoc cells c p st :
  cell_writes (cells ++ [(c, p)]) st = cell_write c p (cell_writes cells st).
Proof. unfold cell_writes. now rewrite foldl_app. Qed.

Lemma store_inv_step fasta0 done c p st :
  store_inv fasta0 done st ->
  p ∉ done.*2 -> (forall c', fasta0 !! c' <> Some p) ->
  store_inv fasta0 (done ++ [(c, p)]) (cell_write c p st).
Proof.
intros (Hinj & Hrange & Hdone) Hfresh Hnew.
assert (Hnot : forall c', fasta_idx st !! c' <> Some p).
{ intros c' Hc'. destruct (Hrange c' p Hc') as [H|H];
    [exact (Hnew c' H)|contradiction]. }
unfold store_inv, cell_write.
destruct (fasta_idx st !! c) as [q|] eqn:Hc; simpl.
- split; [exact Hinj|]. split.
  + intros c' q' H. destruct (Hrange c' q' H) as [H0|H0]; [now left|].
    right. rewrite fmap_app. apply elem_of_app. now left.
  + intros c' p' Hin. apply elem_of_app in Hin as [Hin|Hin].
    * destruct (Hdone c' p' Hin) as [Hs Hm]. split; [exact Hs|].
      rewrite lookup_insert_ne; [exact Hm|].
      intros ->. apply Hfresh. apply list_elem_of_fmap. now exists (c', p').
    * apply list_elem_of_singleton in Hin. injection Hin as -> ->.
      rewrite Hc, lookup_insert_eq. split; [eauto|reflexivity].
- split; [|split].
  + intros c1 c2 q H1 H2.
    destruct (decide (c = c1)) as [<-|Hn1], (decide (c = c2)) as [<-|Hn2];
      [reflexivity| | |].
    * rewrite lookup_insert_eq in H1. injection H1 as <-.
      rewrite lookup_insert_ne in H2 by exact Hn2. now destruct (Hnot c2).
    * rewrite lookup_insert_eq in H2. injection H2 as <-.
      rewrite lookup_insert_ne in H1 by exact Hn1. now destruct (Hnot c1).
    * rewrite lookup_insert_ne in H1, H2 by assumption. eauto.
  + intros c' q H. rewrite fmap_app.
    destruct (decide (c = c')) as [<-|Hn].
    * rewrite lookup_insert_eq in H. injection H as <-.
      right. apply elem_of_app. right. now left.
    * rewrite lookup_insert_ne in H by exact Hn.
      destruct (Hrange c' q H) as [H0|H0]; [now left|].
      right. apply elem_of_app. now left.
  + intros c' p' Hin. apply elem_of_app in Hin as [Hin|Hin].
    * destruct (Hdone c' p' Hin) as [[q Hq] Hm].
      assert (Hcc : c <> c') by (intros ->; congruence).
      assert (Hpp : p <> p').
      { intros ->. apply Hfresh. apply list_elem_of_fmap. now exists (c', p'). }
      rewrite !lookup_insert_ne by assumption. split; [eauto|exact Hm].
    * apply list_elem_of_singleton in Hin. injection Hin as -> ->.
      rewrite !lookup_insert_eq. split; [eauto|reflexivity].
Qed.

Lemma store_inv_cell_writes fasta0 st : forall cells,
  store_inv fasta0 [] st ->
  NoDup cells.*2 ->
  (forall c p, p ∈ cells.*2 -> fasta0 !! c <> Some p) ->
  store_inv fasta0 cells (cell_writes cells st).
Proof.
induction cells as [|[c p] cells IH] using rev_ind; intros H0 Hnd Hnew.
- exact H0.
- rewrite cell_writes_snoc. rewrite fmap_app in Hnd, Hnew.
  apply NoDup_app in Hnd as (Hnd & Hsep & _).
  apply store_inv_step.
  + apply IH; [exact H0|exact Hnd|].
    intros c' p' Hp'. apply Hnew. apply elem_of_app. now left.
  + intros Hin. apply (Hsep p Hin). now left.
  + intros c'. apply Hnew. apply elem_of_app. right. now left.
Qed.

(** X16: when the sequence index starts with one identifier per sequence
    and the cells are written under distinct identifiers that are not yet
    in it, every identifier written ends up mapped to the canonical
    identifier of its sequence, and two identifiers written end up mapped
    to the same canonical identifier exactly when their cells hold the
    same sequence. *)
Theorem cell_write_identifies_equal_sequences cells st c1 p1 c2 p2 :
  (forall c c' q, fasta_idx st !! c = Some q -> fasta_idx st !! c' = Some q ->
     c = c') ->
  NoDup cells.*2 ->
  (forall c p, p ∈ cells.*2 -> fasta_idx st !! c <> Some p) ->
  (c1, p1) ∈ cells -> (c2, p2) ∈ cells ->
  is_Some (mapping_idx (cell_writes cells st) !! p1) /\
  mapping_idx (cell_writes cells st) !! p1 =
    fasta_idx (cell_writes cells st) !! c1 /\
  (mapping_idx (cell_writes cells st) !! p1 =
   mapping_idx (cell_writes cells st) !! p2 <-> c1 = c2).
Proof.
intros Hinj Hnd Hnew H1 H2.
assert (H0 : store_inv (fasta_idx st) [] st).
{ split; [exact Hinj|]. split; [intros c q H; now left|].
  intros c p H. inversion H. }
destruct (store_inv_cell_writes _ _ cells H0 Hnd Hnew)
  as (Hinj' & _ & Hdone).
destruct (Hdone c1 p1 H1) as [[q1 Hq1] Hm1].
destruct (Hdone c2 p2 H2) as [[q2 Hq2] Hm2].
split; [rewrite Hm1; eauto|]. split; [exact Hm1|].
rewrite Hm1, Hm2. split.
- intros Heq. rewrite Hq1 in Heq. symmetry in Heq. eapply Hinj'; eauto.
- intros ->. reflexivity.
Qed.

Lemma cell_write_identifies_equal_sequences_witness :
  NoDup [("SIINFEKL", "t0_P"); ("GILGFVFTL", "t1_P"); ("SIINFEKL", "t2_P")].*2
  /\ mapping_idx
       (cell_writes
          [("SIINFEKL", "t0_P"); ("GILGFVFTL", "t1_P"); ("SIINFEKL", "t2_P")]
          (State ∅ ∅ ∅)) !! "t0_P" =
     mapping_idx
       (cell_writes
          [("SIINFEKL", "t0_P"); ("GILGFVFTL", "t1_P"); ("SIINFEKL", "t2_P")]
          (State ∅ ∅ ∅)) !! "t2_P".
Proof.
assert (Hnd : NoDup [("SIINFEKL", "t0_P"); ("GILGFVFTL", "t1_P");
                     ("SIINFEKL", "t2_P")].*2).
{ apply (bool_decide_unpack _). vm_compute. exact I. }
split; [exact Hnd|].
apply (cell_write_identifies_equal_sequences
         [("SIINFEKL", "t0_P"); ("GILGFVFTL", "t1_P"); ("SIINFEKL", "t2_P")]
         (State ∅ ∅ ∅) "SIINFEKL" "t0_P" "SIINFEKL" "t2_P").
- intros c c' q H. simpl in H. rewrite lookup_empty in H. discriminate.
- exact Hnd.
- intros c p _ H. simpl in H. rewrite lookup_empty in H. discriminate.
- now left.
- right. right. now left.
- reflexivity.
Defined.

End CsvToFastaFacts.

(** * Writing and reading back an aliasing index *)

Module IndexTextFacts.
Import Index IndexText.


Lemma split_fields_space c s :
  isspace c = true -> split_fields (String c s) = split_fields s.
Proof. intros H. simpl. now rewrite H. Qed.















End IndexTextFacts.

(** * The peptide alignments *)

Module AlignPeptideFacts.
Import Index AlignPeptide.






End AlignPeptideFacts.

(** * The gap normalisation applied twice *)

Module MaskIdempotence.

Lemma match_gaps_0 t : starts_with_gap t = false -> match_gaps t = 0.
Proof. destruct t as [|c t]; simpl; [reflexivity|]. now intros ->. Qed.

Lemma sub_leading_fixed t : starts_with_gap t = false -> sub_leading t = t.
Proof. intros H. unfold sub_leading. now rewrite (match_gaps_0 t H). Qed.

Lemma match_trailing_no_gap t :
  starts_with_gap t = false -> match_trailing t = None.
Proof. intros H. unfold match_trailing. now rewrite (match_gaps_0 t H). Qed.

Lemma starts_sub_leading s : starts_with_gap (sub_leading s) = false.
Proof.
rewrite MaskFacts.sub_leading_eq.
destruct (MaskFacts.leading_split s) as [_ H].
destruct (match_gaps s); [exact H|reflexivity].
Qed.

Lemma starts_sub_trailing t :
  starts_with_gap t = false -> starts_with_gap (sub_trailing t) = false.
Proof.
intros H. destruct t as [|c t]; [reflexivity|].
cbn [sub_trailing]. now rewrite (match_trailing_no_gap _ H).
Qed.

Lemma sub_trailing_empty t : sub_trailing t = EmptyString -> t = EmptyString.
Proof.
intros H. pose proof (MaskMore.masked_from_sub_trailing t) as Hm.
rewrite H in Hm. destruct t; [reflexivity|contradiction].
Qed.

Lemma match_trailing_cons_gap t :
  match_trailing (String gap t) =
  if at_end (string_drop (match_gaps t) t) then Some (S (match_gaps t))
  else None.
Proof. reflexivity. Qed.

(** A row that starts with a gap run the pattern does not match still
    starts with such a run after the substitution. *)
Lemma unmatched_run_stays : forall t,
  starts_with_gap t = true -> match_trailing t = None ->
  starts_with_gap (sub_trailing t) = true /\
  match_trailing (sub_trailing t) = None.
Proof.
induction t as [|c t IH]; intros Hs Hn; [discriminate|].
simpl in Hs. apply Ascii.eqb_eq in Hs. subst c.
cbn [sub_trailing]. rewrite Hn. split; [reflexivity|].
rewrite match_trailing_cons_gap in Hn |- *.
destruct (at_end (string_drop (match_gaps t) t)) eqn:Hend; [discriminate|].
destruct (starts_with_gap t) eqn:Ht.
- assert (Hnt : match_trailing t = None).
  { unfold match_trailing. now rewrite Hend, andb_false_r. }
  destruct (IH eq_refl Hnt) as [Hs' Hn'].
  unfold match_trailing in Hn'.
  destruct (sub_trailing t) as [|d u]; [discriminate|].
  simpl in Hs'. apply Ascii.eqb_eq in Hs'. subst d.
  change (0 <? match_gaps (String gap u)) with true in Hn'. simpl in Hn'.
  change (match_gaps (String gap u)) with (S (match_gaps u)).
  cbn [string_drop].
  destruct (at_end (string_drop (match_gaps u) u)); [discriminate|reflexivity].
- rewrite (match_gaps_0 t Ht) in Hend. simpl in Hend.
  pose proof (starts_sub_trailing t Ht) as Hs'.
  rewrite (match_gaps_0 _ Hs'). simpl.
  assert (Hend' : at_end (sub_trailing t) = false).
  { destruct t as [|d t]; [discriminate|].
    cbn [sub_trailing]. rewrite (match_trailing_no_gap _ Ht).
    destruct (sub_trailing t) as [|e u] eqn:Hu; [|reflexivity].
    apply sub_trailing_empty in Hu. subst t. exact Hend. }
  now rewrite Hend'.
Qed.

Lemma match_trailing_sub_trailing t : match_trailing (sub_trailing t) = None.
Proof.
destruct t as [|c t]; [reflexivity|].
destruct (match_trailing (String c t)) as [n|] eqn:Hm.
- cbn [sub_trailing]. rewrite Hm. apply match_trailing_no_gap.
  assert (Hn : 0 < n).
  { unfold match_trailing in Hm.
    destruct (0 <? match_gaps (String c t)) eqn:Hpos;
      [rewrite andb_true_l in Hm|rewrite andb_false_l in Hm; discriminate].
    destruct (at_end (string_drop (match_gaps (String c t)) (String c t)));
      [|discriminate].
    injection Hm as <-. now apply Nat.ltb_lt in Hpos. }
  destruct n; [lia|reflexivity].
- destruct (starts_with_gap (String c t)) eqn:Hs.
  + apply (unmatched_run_stays _ Hs Hm).
  + apply match_trailing_no_gap. now apply starts_sub_trailing.
Qed.

Lemma sub_trailing_at_end r : at_end r = true -> sub_trailing r = r.
Proof.
destruct r as [|c [|d r]]; simpl; try discriminate; [reflexivity|].
intros H. apply Ascii.eqb_eq in H. subst c. reflexivity.
Qed.

Lemma sub_trailing_idempotent : forall t,
  sub_trailing (sub_trailing t) = sub_trailing t.
Proof.
induction t as [|c t IH]; [reflexivity|].
pose proof (match_trailing_sub_trailing (String c t)) as Hnone.
cbn [sub_trailing] in Hnone |- *.
destruct (match_trailing (String c t)) as [n|] eqn:Hm.
- unfold _repl. rewrite MaskFacts.sub_trailing_after_mask. f_equal.
  apply sub_trailing_at_end.
  unfold match_trailing in Hm.
  destruct (0 <? match_gaps (String c t));
    [rewrite andb_true_l in Hm|rewrite andb_false_l in Hm; discriminate].
  destruct (at_end (string_drop (match_gaps (String c t)) (String c t)))
    eqn:E; [|discriminate].
  now injection Hm as <-.
- cbn [sub_trailing]. rewrite Hnone. now rewrite IH.
Qed.

(** X19: the gap normalisation is idempotent on every row: a normalised
    row has no leading and no trailing gap run left to replace. *)
Theorem mask_row_idempotent row : mask_row (mask_row row) = mask_row row.
Proof.
unfold mask_row.
rewrite (sub_leading_fixed (sub_trailing (sub_leading row))).
- apply sub_trailing_idempotent.
- apply starts_sub_trailing, starts_sub_leading.
Qed.

End MaskIdempotence.

(** * The allele table *)

Module MhcPreprocessFacts.
Import MhcPreprocess.

Lemma add_allele_lookup d row k :
  add_allele d row !! k =
  match d !! k with
  | Some v => Some v
  | None => if decide (allele_key 3 row.1 = k \/ allele_key 2 row.1 = k)
            then Some row.2 else None
  end.
Proof.
unfold add_allele. cbn [foldl].
set (k3 := allele_key 3 row.1). set (k2 := allele_key 2 row.1).
set (d1 := match d !! k3 with Some _ => d | None => <[k3 := row.2]> d end).
assert (H1 : forall k', d1 !! k' =
               match d !! k' with
               | Some v => Some v
               | None => if decide (k3 = k') then Some row.2 else None
               end).
{ intros k'. unfold d1. destruct (d !! k3) as [v3|] eqn:E3.
  - destruct (d !! k') eqn:Ek; [reflexivity|].
    destruct (decide (k3 = k')) as [<-|]; [congruence|reflexivity].
  - destruct (decide (k3 = k')) as [<-|Hne].
    + now rewrite lookup_insert_eq, E3.
    + rewrite lookup_insert_ne by exact Hne. now destruct (d !! k'). }
assert (H2 : (match d1 !! k2 with Some _ => d1 | None => <[k2 := row.2]> d1 end)
               !! k =
             match d1 !! k with
             | Some v => Some v
             | None => if decide (k2 = k) then Some row.2 else None
             end).
{ destruct (d1 !! k2) as [v2|] eqn:E2.
  - destruct (d1 !! k) eqn:Ek; [reflexivity|].
    destruct (decide (k2 = k)) as [<-|]; [congruence|reflexivity].
  - destruct (decide (k2 = k)) as [<-|Hne].
    + now rewrite lookup_insert_eq, E2.
    + rewrite lookup_insert_ne by exact Hne. now destruct (d1 !! k). }
rewrite H2, H1. destruct (d !! k) as [v|]; [reflexivity|].
destruct (decide (k3 = k)) as [Hk3|Hk3].
- now rewrite decide_True by (now left).
- destruct (decide (k2 = k)) as [Hk2|Hk2].
  + now rewrite decide_True by (now right).
  + now rewrite decide_False by tauto.
Qed.

Lemma foldl_add_allele_lookup k : forall rows d,
  foldl add_allele d rows !! k =
  match d !! k with
  | Some v => Some v
  | None => first_allele k rows
  end.
Proof.
induction rows as [|row rows IH]; intros d; simpl.
- now destruct (d !! k).
- rewrite IH, add_allele_lookup. destruct (d !! k); [reflexivity|].
  now destruct (decide _).
Qed.

Lemma allele_key_fields :
  allele_key 3 "HLA-A*02:01:01" = "HLA-A0201" /\
  allele_key 2 "HLA-A*02:01:01" = "HLA-A02".
Proof. split; vm_compute; reflexivity. Qed.

(** X20: in the allele table the first row wins: a key, made of the first
    3 or the first 2 fields of an allele name, holds the sequence of the
    first row whose name gives it, and no later row changes it; the rows
    written are the rows of the label file whose allele is a key, in
    order. *)
Theorem first_allele_row_wins rows :
  (forall k, load_alleles rows !! k = first_allele k rows) /\
  (forall k v row, load_alleles rows !! k = Some v ->
     load_alleles (rows ++ [row]) !! k = Some v) /\
  (forall labels,
     mhc_rows (load_alleles rows) labels =
     omap (fun row => (fun sqe => (row.2, sqe)) <$> first_allele row.1 rows)
       labels).
Proof.
assert (Hl : forall k, load_alleles rows !! k = first_allele k rows).
{ intros k. unfold load_alleles. rewrite foldl_add_allele_lookup.
  now rewrite lookup_empty. }
split; [exact Hl|]. split.
- intros k v row H. unfold load_alleles in *. rewrite foldl_app. simpl.
  rewrite add_allele_lookup. now rewrite H.
- intros labels. unfold mhc_rows.
  induction labels as [|row labels IH]; [reflexivity|].
  cbn [omap list_omap]. fold (@omap list _ _ _
    (fun row : string * string =>
       (fun sqe => (row.2, sqe)) <$> load_alleles rows !! row.1)) in *.
  rewrite Hl. destruct (first_allele row.1 rows); simpl; now rewrite IH.
Qed.

End MhcPreprocessFacts.

(** * The selection of the rows of a hit *)

Module SelectionFacts.
Import Index Assembler.

Lemma select_row_first sh data pid tc : forall chain_list s,
  select_row sh data pid tc chain_list = Ok (Some s) ->
  exists before chain after r,
    chain_list = before ++ chain :: after /\
    (forall c, c ∈ before ->
       exists r', record_of sh data pid c = Ok r' /\ rec_target_chain r' <> tc) /\
    record_of sh data pid chain = Ok r /\ rec_target_chain r = tc /\
    s = mask_row (rec_seq r).
Proof.
induction chain_list as [|chain rest IH]; intros s H;
  cbn [select_row] in H; [discriminate|].
apply AssemblerFacts.bind_ok in H as (r & Hr & H).
destruct (decide (rec_target_chain r = tc)) as [Heq|Hne].
- injection H as <-. exists [], chain, rest, r.
  split; [reflexivity|]. split; [intros c Hc; inversion Hc|auto].
- apply IH in H as (before & c0 & after & r0 & -> & Hb & H0).
  exists (chain :: before), c0, after, r0.
  split; [reflexivity|]. split; [|exact H0].
  intros c Hc. apply elem_of_cons in Hc as [->|Hc]; [eauto|now apply Hb].
Qed.

(** X21: the contribution of a hit to a target chain is decided by the
    first label of the hit whose record is tagged with that chain: it is
    the normalised row of that record, and the labels after it are not
    looked at; when the labels are exhausted it is the placeholder of mask
    characters over the length of the query. *)
Theorem contribution_is_first_tagged_record
    sh align_data_dict a3m_list pid chain_list i target_chain s :
  hit_seq_at sh align_data_dict a3m_list pid chain_list i target_chain = Ok s ->
  (exists before chain after r,
     chain_list = before ++ chain :: after /\
     (forall c, c ∈ before ->
        exists r', record_of sh align_data_dict pid c = Ok r' /\
                   rec_target_chain r' <> target_chain) /\
     record_of sh align_data_dict pid chain = Ok r /\
     rec_target_chain r = target_chain /\
     s = mask_row (rec_seq r)) \/
  (exists block seq desc,
     a3m_list !! i = Some block /\ _seq_at_i block 0 = Ok (seq, desc) /\
     (forall c, c ∈ chain_list ->
        exists r', record_of sh align_data_dict pid c = Ok r' /\
                   rec_target_chain r' <> target_chain) /\
     s = repeat_char mask (String.length seq)).
Proof.
unfold hit_seq_at. intros H.
apply AssemblerFacts.bind_ok in H as (block & Hb & H).
apply AssemblerFacts.or_raise_ok in Hb.
apply AssemblerFacts.bind_ok in H as ([seq desc] & Hq & H).
apply AssemblerFacts.bind_ok in H as (found & Hsel & [= <-]).
destruct found as [row|]; simpl.
- left. now apply select_row_first.
- right. exists block, seq, desc. split; [exact Hb|]. split; [exact Hq|].
  split; [|reflexivity].
  clear -Hsel. revert Hsel. induction chain_list as [|chain rest IH];
    intros H c Hc; [inversion Hc|].
  cbn [select_row] in H.
  apply AssemblerFacts.bind_ok in H as (r & Hr & H).
  destruct (decide (rec_target_chain r = target_chain)); [discriminate|].
  apply elem_of_cons in Hc as [->|Hc]; [eauto|now apply IH].
Qed.

Lemma contribution_is_first_tagged_record_witness :
  hit_seq_at Examples.db Examples.records_paired
    [Examples.block_a; (["WXYZ"; "WX--"], ["T1_B"; "H1_B/1-2"])] "H1"
    [Some "A"; Some "B"] 1 "B" = Ok "WX**" /\
  ((exists before chain after r,
     [Some "A"; Some "B"] = before ++ chain :: after /\
     (forall c, c ∈ before ->
        exists r', record_of Examples.db Examples.records_paired "H1" c = Ok r' /\
                   rec_target_chain r' <> "B") /\
     record_of Examples.db Examples.records_paired "H1" chain = Ok r /\
     rec_target_chain r = "B" /\
     "WX**" = mask_row (rec_seq r)) \/
   (exists block seq desc,
     [Examples.block_a; (["WXYZ"; "WX--"], ["T1_B"; "H1_B/1-2"])] !! 1%nat
       = Some block /\
     _seq_at_i block 0 = Ok (seq, desc) /\
     (forall c, c ∈ [Some "A"; Some "B"] ->
        exists r', record_of Examples.db Examples.records_paired "H1" c = Ok r' /\
                   rec_target_chain r' <> "B") /\
     "WX**" = repeat_char mask (String.length seq))).
Proof.
split; [vm_compute; reflexivity|].
apply contribution_is_first_tagged_record. vm_compute. reflexivity.
Defined.

Section Codec.

Variable decompose_pid : string -> string * label * option string.
Variable seq_index_split : string -> result (list (Z * Z)).
Variable set_iter : gset string -> list string.

(** X22: a base id has one entry in the coverage accumulator, however
    many rows and aliases credit it, so no hit is retained twice: the
    retained hits are entries of the accumulator with distinct base ids,
    in the order of the accumulator. *)
Theorem retained_hits_are_distinct
    sh target_uri target_mapping_idx target_pid target_chain_list
    a3m_list align_data_dict a3m_dict :
  read_a3m_dict decompose_pid seq_index_split set_iter
    sh target_uri target_mapping_idx target_pid
    target_chain_list [] (∅, []) = Ok (a3m_list, (align_data_dict, a3m_dict)) ->
  NoDup a3m_dict.*1 /\
  NoDup (filter_aligned sh a3m_dict).*1 /\
  filter_aligned sh a3m_dict `sublist_of` a3m_dict.
Proof.
intros H.
assert (Hnd : NoDup a3m_dict.*1).
{ apply (AssemblerFacts.read_a3m_dict_NoDup _ _ _ _ _ _ _ _ _ _ _ _ H).
  constructor. }
split; [exact Hnd|]. split.
- now apply AssemblerFacts.filter_aligned_NoDup.
- apply sublist_filter.
Qed.

End Codec.

Lemma retained_hits_are_distinct_witness :
  Examples.read_a3m_dict Examples.db Examples.blocks_repeated ∅ "T1"
    ["A"; "B"] [] (∅, []) =
  Ok ([Examples.block_a;
       (["WXYZ"; "WXY-"; "WX--"], ["T1_B"; "H1_A/1-3"; "H1_B/1-2"])],
      (Examples.records_repeated, [("H1", [Some "A"; Some "A"; Some "B"])]))
  /\ NoDup [("H1", [Some "A"; Some "A"; Some "B"])].*1.
Proof.
assert (H : Examples.read_a3m_dict Examples.db Examples.blocks_repeated ∅ "T1"
    ["A"; "B"] [] (∅, []) =
  Ok ([Examples.block_a;
       (["WXYZ"; "WXY-"; "WX--"], ["T1_B"; "H1_A/1-3"; "H1_B/1-2"])],
      (Examples.records_repeated, [("H1", [Some "A"; Some "A"; Some "B"])])))
  by (vm_compute; reflexivity).
split; [exact H|].
exact (proj1 (retained_hits_are_distinct Codec.decompose_pid
                Codec.seq_index_split Codec.set_iter _ _ _ _ _ _ _ _ H)).
Defined.

End SelectionFacts.

